(** * Rent vs. Own: the projection engine of [app.py]

    The locked logic of [app.py] (everything below the sidebar widgets) is a
    straight-line numeric program: it derives a few initial values, computes
    the fixed mortgage payment, and then runs a 15-iteration yearly loop with
    a 12-iteration monthly amortization loop inside.

    Numbers.  The Python program computes with ints and binary64 floats.
    This development reads every numeric variable as an exact rational
    number kept in lowest terms ([Qc]), so [+ - * /] are the exact field
    operations and [=] is equality of values.  Rounding error is outside the
    model; statements that hold here hold for the program up to rounding.
    Where rounding decides a statement, namely the sign of the balance the
    last payment leaves, the monthly loop is also given in binary64
    (module [Binary64]) and evaluated there.

    The widgets above the locked logic and the display below it are not
    modelled: the inputs are the values the widget block binds, the output
    is the four columns of the data frame.  The one library call of the
    locked logic, [numpy_financial.pmt], is modelled from the
    specification. *)

From Stdlib Require Import String ZArith QArith Qcanon Lqa Lia List Bool.
From Stdlib Require PrimFloat.
Import ListNotations.

Local Open Scope Z_scope.
Local Open Scope Qc_scope.

(** ** Numbers *)

Module Num.

(** An integer literal or int-valued variable used in float arithmetic. *)
Definition ofZ (z : Z) : Qc := Q2Qc (inject_Z z).

(** A decimal literal [n / d], such as [6.25 / 100]. *)
Definition frac (n : Z) (d : positive) : Qc := Q2Qc (n # d).

(** [x < y] as the boolean test Python evaluates. *)
Definition ltb (x y : Qc) : bool :=
  match x ?= y with
  | Lt => true
  | _ => false
  end.

(** Python's two-argument [min(x, y)]: the second argument only when it is
    strictly smaller than the first. *)
Definition min (x y : Qc) : Qc := if ltb y x then y else x.

(** Python's [max(x, y)], used only on the specification side. *)
Definition max (x y : Qc) : Qc := if ltb x y then y else x.

(** [x ** k] for an integer exponent [k]. *)
Definition pow (x : Qc) (k : Z) : Qc :=
  match k with
  | Z0 => 1
  | Zpos p => x ^ Pos.to_nat p
  | Zneg p => / (x ^ Pos.to_nat p)
  end.

End Num.

Notation "# z" := (Num.ofZ z) (at level 1, format "# z") : Qc_scope.

(** ** Data model *)

(** The values bound by the sidebar block (lines 16-46), percentages already
    divided by 100. *)
Record Assumptions : Type := mkAssumptions {
  purchase_price : Qc;
  down_payment_percent : Qc;
  mortgage_rate : Qc;
  mortgage_term : Z;
  renovation_cost : Qc;
  reno_recapture : Qc;
  hoa_monthly : Qc;
  insurance_rate : Qc;
  maintenance_rate : Qc;
  tax_rate : Qc;
  assessed_value_pct : Qc;
  homestead_exemption : Qc;
  tax_cap_rate : Qc;
  appreciation_rate : Qc;
  inflation_rate : Qc;
  rent_appreciation : Qc;
  cost_of_capital : Qc;
  monthly_rent : Qc;
  selling_costs_pct : Qc
}.

(** The input domain of the engine: rates and fractions are non-negative,
    the down-payment and recapture fractions lie in [0,1], the term is 15 or
    30, and price, renovation cost, HOA and rent are non-negative amounts.
    The homestead exemption is not constrained. *)
Record well_formed (a : Assumptions) : Prop := mkWellFormed {
  wf_price : 0 <= purchase_price a;
  wf_down_lo : 0 <= down_payment_percent a;
  wf_down_hi : down_payment_percent a <= 1;
  wf_rate : 0 <= mortgage_rate a;
  wf_term : mortgage_term a = 15%Z \/ mortgage_term a = 30%Z;
  wf_reno : 0 <= renovation_cost a;
  wf_recapture_lo : 0 <= reno_recapture a;
  wf_recapture_hi : reno_recapture a <= 1;
  wf_hoa : 0 <= hoa_monthly a;
  wf_insurance : 0 <= insurance_rate a;
  wf_maintenance : 0 <= maintenance_rate a;
  wf_tax_rate : 0 <= tax_rate a;
  wf_assessed : 0 <= assessed_value_pct a;
  wf_tax_cap : 0 <= tax_cap_rate a;
  wf_appreciation : 0 <= appreciation_rate a;
  wf_inflation : 0 <= inflation_rate a;
  wf_rent_appreciation : 0 <= rent_appreciation a;
  wf_cost_of_capital : 0 <= cost_of_capital a;
  wf_rent : 0 <= monthly_rent a;
  wf_selling : 0 <= selling_costs_pct a
}.

(** ** Initial calculations (lines 52-64) *)

Definition down_payment_dollars (a : Assumptions) : Qc :=
  purchase_price a * down_payment_percent a.

Definition loan_amount (a : Assumptions) : Qc :=
  purchase_price a - down_payment_dollars a.

Definition initial_market_value (a : Assumptions) : Qc :=
  purchase_price a + renovation_cost a * reno_recapture a.

Definition initial_cash_invested (a : Assumptions) : Qc :=
  down_payment_dollars a + renovation_cost a.

Definition monthly_rate (a : Assumptions) : Qc := mortgage_rate a / #12.

Definition n_periods (a : Assumptions) : Z := (mortgage_term a * 12)%Z.

(** Modelled from the spec: [numpy_financial.pmt], the payment function that
    line 60 calls, is an imported library and its code is not part of the
    repository.  Section 4.1 of the specification gives the payment it
    returns (negated at the call site, with the default [fv = 0] and
    end-of-period payments): [M = r * pv / (1 - (1 + r)^(-n))], and
    [M = pv / n] when [r == 0].  [pmt] returns the library's value, which is
    the negative of [M]. *)
Definition pmt (rate : Qc) (nper : Z) (pv : Qc) : Qc :=
  if Qc_eq_dec rate 0
  then - (pv / #nper)
  else - (rate * pv / (1 - Num.pow (1 + rate) (- nper))).

Definition monthly_pi (a : Assumptions) : Qc :=
  - pmt (monthly_rate a) (n_periods a) (loan_amount a).

Definition taxable_value_base (a : Assumptions) : Qc :=
  (purchase_price a - homestead_exemption a) * assessed_value_pct a.

Definition initial_tax_bill (a : Assumptions) : Qc :=
  taxable_value_base a * tax_rate a.

(** ** Simulation state (lines 67-83) *)

(** The variables that live across iterations of the yearly loop, and the
    four output lists the loop appends to. *)
Record State : Type := mkState {
  curr_home_value : Qc;
  curr_rent_monthly : Qc;
  curr_tax_bill : Qc;
  curr_hoa : Qc;
  curr_maint : Qc;
  curr_insurance : Qc;
  curr_loan_balance : Qc;
  renter_portfolio : Qc;
  years : list Z;
  owner_net_outcome : list Qc;
  renter_net_outcome : list Qc;
  gap_data : list Qc
}.

Definition init (a : Assumptions) : State :=
  {| curr_home_value := initial_market_value a;
     curr_rent_monthly := monthly_rent a;
     curr_tax_bill := initial_tax_bill a;
     curr_hoa := hoa_monthly a;
     curr_maint := initial_market_value a * maintenance_rate a;
     curr_insurance := initial_market_value a * insurance_rate a;
     curr_loan_balance := loan_amount a;
     renter_portfolio := initial_cash_invested a;
     years := [];
     owner_net_outcome := [];
     renter_net_outcome := [];
     gap_data := [] |}.

(** ** Step 1 of the loop body: market values (lines 87-101) *)

Definition tax_growth (a : Assumptions) : Qc :=
  Num.min (inflation_rate a) (tax_cap_rate a).

Definition escalate (a : Assumptions) (year : Z) (s : State) : State :=
  if (1 <? year)%Z then
    {| curr_home_value := curr_home_value s * (1 + appreciation_rate a);
       curr_rent_monthly := curr_rent_monthly s * (1 + rent_appreciation a);
       curr_tax_bill := curr_tax_bill s * (1 + tax_growth a);
       curr_hoa := curr_hoa s * (1 + inflation_rate a);
       curr_maint := curr_maint s * (1 + inflation_rate a);
       curr_insurance := curr_insurance s * (1 + inflation_rate a);
       curr_loan_balance := curr_loan_balance s;
       renter_portfolio := renter_portfolio s;
       years := years s;
       owner_net_outcome := owner_net_outcome s;
       renter_net_outcome := renter_net_outcome s;
       gap_data := gap_data s |}
  else
    {| curr_home_value := curr_home_value s * (1 + appreciation_rate a);
       curr_rent_monthly := curr_rent_monthly s;
       curr_tax_bill := curr_tax_bill s;
       curr_hoa := curr_hoa s;
       curr_maint := curr_maint s;
       curr_insurance := curr_insurance s;
       curr_loan_balance := curr_loan_balance s;
       renter_portfolio := renter_portfolio s;
       years := years s;
       owner_net_outcome := owner_net_outcome s;
       renter_net_outcome := renter_net_outcome s;
       gap_data := gap_data s |}.

(** ** Steps 2-4: cash flows and the renter's portfolio (lines 104-115) *)

(** [M] stands for the variable [monthly_pi], computed once on line 60 and
    only read by the loop; [r] below stands for [monthly_rate] likewise. *)
Definition owner_annual_spend (M : Qc) (s : State) : Qc :=
  M * #12 + curr_hoa s * #12 + curr_tax_bill s + curr_maint s
  + curr_insurance s.

Definition renter_annual_spend (s : State) : Qc := curr_rent_monthly s * #12.

Definition cash_flow_diff (M : Qc) (s : State) : Qc :=
  owner_annual_spend M s - renter_annual_spend s.

Definition grow_portfolio (a : Assumptions) (M : Qc) (s : State) : Qc :=
  renter_portfolio s * (1 + cost_of_capital a) + cash_flow_diff M s.

(** ** Step 5: the monthly amortization loop (lines 119-129) *)

(** The three variables the monthly loop updates. *)
Record Loan : Type := mkLoan {
  balance : Qc;
  interest_paid : Qc;
  principal_paid : Qc
}.

(** One iteration of [for _ in range(12)]. *)
Definition pay_month (r M : Qc) (l : Loan) : Loan :=
  if Num.ltb 0 (balance l) then
    let interest := balance l * r in
    let principal := M - interest in
    {| balance := balance l - principal;
       interest_paid := interest_paid l + interest;
       principal_paid := principal_paid l + principal |}
  else
    {| balance := 0;
       interest_paid := interest_paid l;
       principal_paid := principal_paid l |}.

Fixpoint pay_months (r M : Qc) (k : nat) (l : Loan) : Loan :=
  match k with
  | O => l
  | S k' => pay_months r M k' (pay_month r M l)
  end.

(** Lines 119-129: both totals restart at 0, then twelve months. *)
Definition pay_year (r M : Qc) (bal : Qc) : Loan :=
  pay_months r M 12
    {| balance := bal; interest_paid := 0; principal_paid := 0 |}.

(** ** Steps 6-7 and the whole loop body (lines 86-146) *)

Definition equity_of (a : Assumptions) (home_value bal : Qc) : Qc :=
  home_value - home_value * selling_costs_pct a - bal.

Definition year_body (a : Assumptions) (r M : Qc) (year : Z) (s : State)
  : State :=
  let s1 := escalate a year s in
  let portfolio := grow_portfolio a M s1 in
  let loan := pay_year r M (curr_loan_balance s1) in
  let owner_equity := equity_of a (curr_home_value s1) (balance loan) in
  let renter_equity := portfolio in
  let benefit := owner_equity - renter_equity in
  {| curr_home_value := curr_home_value s1;
     curr_rent_monthly := curr_rent_monthly s1;
     curr_tax_bill := curr_tax_bill s1;
     curr_hoa := curr_hoa s1;
     curr_maint := curr_maint s1;
     curr_insurance := curr_insurance s1;
     curr_loan_balance := balance loan;
     renter_portfolio := portfolio;
     years := years s1 ++ [year];
     owner_net_outcome := owner_net_outcome s1 ++ [owner_equity];
     renter_net_outcome := renter_net_outcome s1 ++ [renter_equity];
     gap_data := gap_data s1 ++ [benefit] |}.

(** [range(lo, lo + len)]. *)
Fixpoint range (lo : Z) (len : nat) : list Z :=
  match len with
  | O => []
  | S len' => lo :: range (lo + 1) len'
  end.

(** The loop [for year in ys], started in state [s]. *)
Definition loop (a : Assumptions) (r M : Qc) (ys : list Z) (s : State)
  : State :=
  fold_left (fun st year => year_body a r M year st) ys s.

(** State after the first [k] iterations of [for year in range(1, 16)]. *)
Definition state_after (a : Assumptions) (k : nat) : State :=
  loop a (monthly_rate a) (monthly_pi a) (range 1 k) (init a).

Definition simulate (a : Assumptions) : State := state_after a 15.

(** ** Output (lines 152-157) *)

Record YearResult : Type := mkYearResult {
  year : Z;
  owner_equity : Qc;
  renter_equity : Qc;
  benefit : Qc
}.

(** The rows of the data frame built from the four columns, which the loop
    keeps at the same length. *)
Fixpoint rows (ys : list Z) (os rs gs : list Qc) : list YearResult :=
  match ys, os, rs, gs with
  | y :: ys', o :: os', r :: rs', g :: gs' =>
      mkYearResult y o r g :: rows ys' os' rs' gs'
  | _, _, _, _ => []
  end.

Definition results_of (s : State) : list YearResult :=
  rows (years s) (owner_net_outcome s) (renter_net_outcome s) (gap_data s).

Definition df_res (a : Assumptions) : list YearResult :=
  results_of (simulate a).

(** ** The monthly loop in binary64 *)

(** Lines 52-60 and 119-129 once more, with the program's own arithmetic:
    IEEE 754 binary64, rounding to nearest even. *)
Module Binary64.

Import PrimFloat.
Local Open Scope float_scope.

Definition loan_amount (purchase_price down_payment_percent : float) : float :=
  purchase_price - purchase_price * down_payment_percent.

Definition monthly_rate (mortgage_rate : float) : float := mortgage_rate / 12.

(** Modelled from the spec: the value of [-numpy_financial.pmt(rate, nper,
    pv)] at [rate == 0], which section 4.1 gives as [pv / nper]. *)
Definition zero_rate_payment (pv nper : float) : float := pv / nper.

Record Loan : Type := mkLoan {
  balance : float;
  interest_paid : float;
  principal_paid : float
}.

(** One iteration of [for _ in range(12)]. *)
Definition pay_month (r M : float) (l : Loan) : Loan :=
  if 0 <? balance l then
    let interest := balance l * r in
    let principal := M - interest in
    {| balance := balance l - principal;
       interest_paid := interest_paid l + interest;
       principal_paid := principal_paid l + principal |}
  else
    {| balance := 0;
       interest_paid := interest_paid l;
       principal_paid := principal_paid l |}.

Fixpoint pay_months (r M : float) (k : nat) (l : Loan) : Loan :=
  match k with
  | O => l
  | S k' => pay_months r M k' (pay_month r M l)
  end.

Definition pay_year (r M bal : float) : Loan :=
  pay_months r M 12
    {| balance := bal; interest_paid := 0; principal_paid := 0 |}.

(** The balance the yearly loop carries after [k] years. *)
Fixpoint balance_after (r M : float) (k : nat) (bal : float) : float :=
  match k with
  | O => bal
  | S k' => balance_after r M k' (balance (pay_year r M bal))
  end.

(** A well-formed input: a price of 400000 with no down payment, financed
    at 0% over 15 years. *)
Definition sample_loan : float := loan_amount 400000 0.
Definition sample_rate : float := monthly_rate (0 / 100).
Definition sample_payment : float := zero_rate_payment sample_loan (15 * 12).


End Binary64.

(** ** Quantities the statements are phrased with *)

(** The loan after [k] months of the schedule, counted from the start of the
    simulation; the accumulators are never reset here. *)
Definition loan_after (a : Assumptions) (k : nat) : Loan :=
  pay_months (monthly_rate a) (monthly_pi a) k
    {| balance := loan_amount a; interest_paid := 0; principal_paid := 0 |}.

(** The outstanding balance of an annuity loan of [L] over [n] months at
    monthly rate [r], after [k] payments. *)
Definition closed_balance (r L : Qc) (n k : nat) : Qc :=
  if Qc_eq_dec r 0
  then L * (#(Z.of_nat n) - #(Z.of_nat k)) / #(Z.of_nat n)
  else L * ((1 + r) ^ n - (1 + r) ^ k) / ((1 + r) ^ n - 1).

(** The level payment of that loan, with the exponent as a natural number. *)
Definition payment (r L : Qc) (n : nat) : Qc :=
  if Qc_eq_dec r 0
  then L / #(Z.of_nat n)
  else r * L / (1 - / ((1 + r) ^ n)).

(** The state in which year [y]'s cash flows are computed: the state left by
    year [y - 1], after step 1 of year [y]. *)
Definition year_start (a : Assumptions) (y : nat) : State :=
  escalate a (Z.of_nat y) (state_after a (y - 1)).

(** The row the loop appends in year [y], read off the state it leaves. *)
Definition year_result (a : Assumptions) (y : nat) : YearResult :=
  let s := state_after a y in
  let owner := equity_of a (curr_home_value s) (curr_loan_balance s) in
  {| year := Z.of_nat y;
     owner_equity := owner;
     renter_equity := renter_portfolio s;
     benefit := owner - renter_portfolio s |}.

(** ** Sample inputs *)

(** The default values of the sidebar widgets. *)
Definition baseline : Assumptions :=
  {| purchase_price := #550000;
     down_payment_percent := Num.frac 20 100;
     mortgage_rate := Num.frac 625 100 / #100;
     mortgage_term := 15;
     renovation_cost := #50000;
     reno_recapture := Num.frac 80 100;
     hoa_monthly := #700;
     insurance_rate := #1 / #100;
     maintenance_rate := #1 / #100;
     tax_rate := Num.frac 25 10 / #100;
     assessed_value_pct := #86 / #100;
     homestead_exemption := #75000;
     tax_cap_rate := #3 / #100;
     appreciation_rate := #3 / #100;
     inflation_rate := #3 / #100;
     rent_appreciation := #3 / #100;
     cost_of_capital := #5 / #100;
     monthly_rent := #3500;
     selling_costs_pct := #7 / #100 |}.

(** [a] with another mortgage rate and term. *)
Definition set_mortgage (a : Assumptions) (rate : Qc) (term : Z)
  : Assumptions :=
  {| purchase_price := purchase_price a;
     down_payment_percent := down_payment_percent a;
     mortgage_rate := rate;
     mortgage_term := term;
     renovation_cost := renovation_cost a;
     reno_recapture := reno_recapture a;
     hoa_monthly := hoa_monthly a;
     insurance_rate := insurance_rate a;
     maintenance_rate := maintenance_rate a;
     tax_rate := tax_rate a;
     assessed_value_pct := assessed_value_pct a;
     homestead_exemption := homestead_exemption a;
     tax_cap_rate := tax_cap_rate a;
     appreciation_rate := appreciation_rate a;
     inflation_rate := inflation_rate a;
     rent_appreciation := rent_appreciation a;
     cost_of_capital := cost_of_capital a;
     monthly_rent := monthly_rent a;
     selling_costs_pct := selling_costs_pct a |}.

(** [a] with another tax rate, homestead exemption and tax cap. *)
Definition set_tax (a : Assumptions) (rate exemption cap : Qc)
  : Assumptions :=
  {| purchase_price := purchase_price a;
     down_payment_percent := down_payment_percent a;
     mortgage_rate := mortgage_rate a;
     mortgage_term := mortgage_term a;
     renovation_cost := renovation_cost a;
     reno_recapture := reno_recapture a;
     hoa_monthly := hoa_monthly a;
     insurance_rate := insurance_rate a;
     maintenance_rate := maintenance_rate a;
     tax_rate := rate;
     assessed_value_pct := assessed_value_pct a;
     homestead_exemption := exemption;
     tax_cap_rate := cap;
     appreciation_rate := appreciation_rate a;
     inflation_rate := inflation_rate a;
     rent_appreciation := rent_appreciation a;
     cost_of_capital := cost_of_capital a;
     monthly_rent := monthly_rent a;
     selling_costs_pct := selling_costs_pct a |}.

(** [a] with another appreciation rate and selling-costs fraction. *)
Definition set_sale (a : Assumptions) (appreciation selling : Qc)
  : Assumptions :=
  {| purchase_price := purchase_price a;
     down_payment_percent := down_payment_percent a;
     mortgage_rate := mortgage_rate a;
     mortgage_term := mortgage_term a;
     renovation_cost := renovation_cost a;
     reno_recapture := reno_recapture a;
     hoa_monthly := hoa_monthly a;
     insurance_rate := insurance_rate a;
     maintenance_rate := maintenance_rate a;
     tax_rate := tax_rate a;
     assessed_value_pct := assessed_value_pct a;
     homestead_exemption := homestead_exemption a;
     tax_cap_rate := tax_cap_rate a;
     appreciation_rate := appreciation;
     inflation_rate := inflation_rate a;
     rent_appreciation := rent_appreciation a;
     cost_of_capital := cost_of_capital a;
     monthly_rent := monthly_rent a;
     selling_costs_pct := selling |}.

(** The baseline with an interest-free 30-year loan. *)
Definition zero_rate_30 : Assumptions := set_mortgage baseline 0 30.

(** The baseline with an exemption above the price and a 2% tax cap. *)
Definition exempt : Assumptions :=
  set_tax baseline (Num.frac 25 10 / #100) #600000 (#2 / #100).

(** The same, in a jurisdiction that levies no property tax. *)
Definition exempt_untaxed : Assumptions :=
  set_tax baseline 0 #600000 (#2 / #100).

(** ** Noninterference vocabulary *)

(** Two records that agree on every field except, possibly, the appreciation
    rate and the selling-costs fraction. *)
Definition agree_off_sale (a1 a2 : Assumptions) : Prop :=
  purchase_price a1 = purchase_price a2
  /\ down_payment_percent a1 = down_payment_percent a2
  /\ mortgage_rate a1 = mortgage_rate a2
  /\ mortgage_term a1 = mortgage_term a2
  /\ renovation_cost a1 = renovation_cost a2
  /\ reno_recapture a1 = reno_recapture a2
  /\ hoa_monthly a1 = hoa_monthly a2
  /\ insurance_rate a1 = insurance_rate a2
  /\ maintenance_rate a1 = maintenance_rate a2
  /\ tax_rate a1 = tax_rate a2
  /\ assessed_value_pct a1 = assessed_value_pct a2
  /\ homestead_exemption a1 = homestead_exemption a2
  /\ tax_cap_rate a1 = tax_cap_rate a2
  /\ inflation_rate a1 = inflation_rate a2
  /\ rent_appreciation a1 = rent_appreciation a2
  /\ cost_of_capital a1 = cost_of_capital a2
  /\ monthly_rent a1 = monthly_rent a2.

(** What the renter's side of the loop reads and writes. *)
Definition renter_view (s : State)
  : Qc * Qc * Qc * Qc * Qc * Qc * list Qc :=
  (curr_rent_monthly s, curr_tax_bill s, curr_hoa s, curr_maint s,
   curr_insurance s, renter_portfolio s, renter_net_outcome s).

(** ** Summary metrics (lines 160-184) *)

(** The [delta] argument of a metric: ["Owner Wins" if gap > 0 else
    "Renter Wins"]. *)
Definition delta_of (gap : Qc) : string :=
  if Num.ltb 0 gap then "Owner Wins"%string else "Renter Wins"%string.

(** The [delta_color] argument: ["normal" if gap > 0 else "inverse"]. *)
Definition delta_color_of (gap : Qc) : string :=
  if Num.ltb 0 gap then "normal"%string else "inverse"%string.

(** The label and colour of the metric that reads [gap_data[i]]; [None]
    stands for the [IndexError] of an index past the end of the list.  The
    formatted [value] string of the metric is left out. *)
Definition metric_delta (s : State) (i : nat) : option (string * string) :=
  match nth_error (gap_data s) i with
  | Some gap => Some (delta_of gap, delta_color_of gap)
  | None => None
  end.

(** ** Further vocabulary *)

(** The three variables the monthly loop leaves after the twelve months of
    year [y]: the balance and the year's interest and principal totals. *)
Definition year_loan (a : Assumptions) (y : nat) : Loan :=
  pay_year (monthly_rate a) (monthly_pi a)
    (curr_loan_balance (state_after a (y - 1))).

(** [a] with another monthly rent. *)
Definition set_rent (a : Assumptions) (rent : Qc) : Assumptions :=
  {| purchase_price := purchase_price a;
     down_payment_percent := down_payment_percent a;
     mortgage_rate := mortgage_rate a;
     mortgage_term := mortgage_term a;
     renovation_cost := renovation_cost a;
     reno_recapture := reno_recapture a;
     hoa_monthly := hoa_monthly a;
     insurance_rate := insurance_rate a;
     maintenance_rate := maintenance_rate a;
     tax_rate := tax_rate a;
     assessed_value_pct := assessed_value_pct a;
     homestead_exemption := homestead_exemption a;
     tax_cap_rate := tax_cap_rate a;
     appreciation_rate := appreciation_rate a;
     inflation_rate := inflation_rate a;
     rent_appreciation := rent_appreciation a;
     cost_of_capital := cost_of_capital a;
     monthly_rent := rent;
     selling_costs_pct := selling_costs_pct a |}.

(** [a] with another down-payment fraction. *)
Definition set_down (a : Assumptions) (down : Qc) : Assumptions :=
  {| purchase_price := purchase_price a;
     down_payment_percent := down;
     mortgage_rate := mortgage_rate a;
     mortgage_term := mortgage_term a;
     renovation_cost := renovation_cost a;
     reno_recapture := reno_recapture a;
     hoa_monthly := hoa_monthly a;
     insurance_rate := insurance_rate a;
     maintenance_rate := maintenance_rate a;
     tax_rate := tax_rate a;
     assessed_value_pct := assessed_value_pct a;
     homestead_exemption := homestead_exemption a;
     tax_cap_rate := tax_cap_rate a;
     appreciation_rate := appreciation_rate a;
     inflation_rate := inflation_rate a;
     rent_appreciation := rent_appreciation a;
     cost_of_capital := cost_of_capital a;
     monthly_rent := monthly_rent a;
     selling_costs_pct := selling_costs_pct a |}.

(** Two records that agree on the fields the owner's equity is computed
    from: price, down payment, mortgage rate and term, renovation cost and
    recapture, appreciation rate and selling costs. *)
Definition agree_on_owner_inputs (a1 a2 : Assumptions) : Prop :=
  purchase_price a1 = purchase_price a2
  /\ down_payment_percent a1 = down_payment_percent a2
  /\ mortgage_rate a1 = mortgage_rate a2
  /\ mortgage_term a1 = mortgage_term a2
  /\ renovation_cost a1 = renovation_cost a2
  /\ reno_recapture a1 = reno_recapture a2
  /\ appreciation_rate a1 = appreciation_rate a2
  /\ selling_costs_pct a1 = selling_costs_pct a2.

(** The sum of a list of numbers. *)
Definition total (l : list Qc) : Qc := fold_right Qcplus 0 l.

(** The value [cash_flow_diff] takes in year [y] (line 110). *)
Definition year_cash_flow (a : Assumptions) (y : nat) : Qc :=
  cash_flow_diff (monthly_pi a) (year_start a y).

(** What the owner's side of the loop reads and writes. *)
Definition owner_view (s : State) : Qc * Qc * list Qc :=
  (curr_home_value s, curr_loan_balance s, owner_net_outcome s).

(** * Arithmetic on exact rationals *)

Section QcFacts.

Lemma this_plus (x y : Qc) : (this (x + y) == this x + this y)%Q.
Proof. apply Qred_correct. Qed.

Lemma this_mult (x y : Qc) : (this (x * y) == this x * this y)%Q.
Proof. apply Qred_correct. Qed.

Lemma this_opp (x : Qc) : (this (- x) == - this x)%Q.
Proof. apply Qred_correct. Qed.

Lemma this_minus (x y : Qc) : (this (x - y) == this x - this y)%Q.
Proof. unfold Qcminus. rewrite this_plus, this_opp. reflexivity. Qed.

Lemma this_inv (x : Qc) : (this (/ x) == / this x)%Q.
Proof. apply Qred_correct. Qed.

Lemma this_div (x y : Qc) : (this (x / y) == this x / this y)%Q.
Proof. unfold Qcdiv. rewrite this_mult, this_inv. reflexivity. Qed.

Lemma this_ofZ (z : Z) : (this #z == inject_Z z)%Q.
Proof. apply Qred_correct. Qed.

Lemma this_eq (x y : Qc) : x = y <-> (this x == this y)%Q.
Proof.
  split; intros H.
  - rewrite H. reflexivity.
  - now apply Qc_is_canon.
Qed.

End QcFacts.

(** Move a goal of ordered-field arithmetic from [Qc] to [Q], where [lra] and
    [nra] work. *)
Ltac qc_hyps :=
  repeat match goal with
         | H : @eq Qc _ _ |- _ => apply this_eq in H
         | H : ~ @eq Qc _ _ |- _ => rewrite this_eq in H
         end.

Ltac qc_to_q :=
  qc_hyps;
  try (apply this_eq);
  unfold Qclt, Qcle in *;
  repeat rewrite ?this_plus, ?this_mult, ?this_minus, ?this_opp, ?this_div,
    ?this_inv, ?this_ofZ in *;
  change (this 0) with 0%Q in *;
  change (this 1) with 1%Q in *.

Ltac qc_lra := qc_to_q; lra.
Ltac qc_nra := qc_to_q; nra.

Lemma ofZ_succ (k : nat) : #(Z.of_nat (S k)) = #(Z.of_nat k) + 1.
Proof.
  apply this_eq. rewrite this_plus, !this_ofZ. rewrite Nat2Z.inj_succ.
  unfold Z.succ. rewrite inject_Z_plus. reflexivity.
Qed.

Lemma ofZ_pos (z : Z) : (0 < z)%Z -> 0 < #z.
Proof.
  intros H. unfold Qclt. rewrite this_ofZ. change (this 0) with (inject_Z 0).
  now rewrite <- Zlt_Qlt.
Qed.

Lemma ofZ_lt (x y : Z) : (x < y)%Z -> #x < #y.
Proof.
  intros H. unfold Qclt. rewrite !this_ofZ. now rewrite <- Zlt_Qlt.
Qed.

Lemma ofZ_le (x y : Z) : (x <= y)%Z -> #x <= #y.
Proof.
  intros H. unfold Qcle. rewrite !this_ofZ. now rewrite <- Zle_Qle.
Qed.

Lemma Qc_neq_0_lt (x : Qc) : 0 < x -> x <> 0.
Proof. intros H E. rewrite E in H. revert H. apply Qcle_not_lt, Qcle_refl. Qed.

Lemma Qc_div_pos (x y : Qc) : 0 < x -> 0 < y -> 0 < x / y.
Proof.
  intros Hx Hy. qc_to_q. apply Qlt_shift_div_l; [assumption | lra].
Qed.

Lemma Qc_div_nonneg (x y : Qc) : 0 <= x -> 0 < y -> 0 <= x / y.
Proof.
  intros Hx Hy. qc_to_q. apply Qle_shift_div_l; [assumption | lra].
Qed.

Lemma Qc_mult_le_l (c x y : Qc) : 0 <= c -> x <= y -> c * x <= c * y.
Proof. intros Hc Hxy. qc_nra. Qed.

Lemma Qc_mult_pos (x y : Qc) : 0 < x -> 0 < y -> 0 < x * y.
Proof. intros Hx Hy. qc_nra. Qed.

Lemma Qc_inv_nonneg (x : Qc) : 0 < x -> 0 <= / x.
Proof. intros Hx. apply Qclt_le_weak. qc_to_q. now apply Qinv_lt_0_compat. Qed.

Lemma ltb_lt (x y : Qc) : Num.ltb x y = true <-> x < y.
Proof.
  unfold Num.ltb. rewrite Qclt_alt.
  destruct (x ?= y); split; congruence.
Qed.

Lemma ltb_ge (x y : Qc) : Num.ltb x y = false <-> y <= x.
Proof.
  split; intros H.
  - apply Qcnot_lt_le. intros Hlt. apply ltb_lt in Hlt. congruence.
  - destruct (Num.ltb x y) eqn:E; [|reflexivity].
    apply ltb_lt in E. now apply Qcle_not_lt in H.
Qed.

(** * The annuity schedule in closed form *)

Section Amortization.

Variables (r L : Qc) (n : nat).
Hypothesis r_nonneg : 0 <= r.
Hypothesis L_nonneg : 0 <= L.
Hypothesis n_pos : (0 < n)%nat.

Let q : Qc := 1 + r.
Let M : Qc := payment r L n.
Let B : nat -> Qc := closed_balance r L n.

Lemma pow_ge_1 (k : nat) : 1 <= q ^ k.
Proof.
  induction k as [|k IH]; simpl.
  - qc_lra.
  - subst q. qc_to_q. nra.
Qed.

Lemma pow_step_lt (k : nat) : 0 < r -> q ^ k < q ^ S k.
Proof.
  intros Hr. pose proof (pow_ge_1 k) as Hk. simpl.
  subst q. qc_to_q. nra.
Qed.

Lemma pow_lt_mono (k m : nat) : 0 < r -> (k < m)%nat -> q ^ k < q ^ m.
Proof.
  intros Hr Hkm. induction Hkm as [|m Hkm IH].
  - now apply pow_step_lt.
  - eapply Qclt_trans; [exact IH | now apply pow_step_lt].
Qed.

Lemma pow_gt_1 (k : nat) : 0 < r -> (0 < k)%nat -> 1 < q ^ k.
Proof. intros Hr Hk. exact (pow_lt_mono 0 k Hr Hk). Qed.

Lemma r_cases : r = 0 \/ 0 < r.
Proof.
  destruct (Qcle_lt_or_eq _ _ r_nonneg) as [H|H]; [now right | now left].
Qed.

Lemma n_ofZ_pos : 0 < #(Z.of_nat n).
Proof. apply ofZ_pos. lia. Qed.

Lemma pow_n_minus_1_pos : 0 < r -> 0 < q ^ n - 1.
Proof.
  intros Hr. pose proof (pow_gt_1 n Hr n_pos) as H.
  qc_lra.
Qed.

Lemma closed_balance_0 : B 0 = L.
Proof.
  subst B. unfold closed_balance. destruct (Qc_eq_dec r 0) as [E|E].
  - change (Z.of_nat 0) with 0%Z.
    pose proof (Qc_neq_0_lt _ n_ofZ_pos).
    change (#0) with 0. field. assumption.
  - assert (Hr : 0 < r) by (destruct r_cases; [contradiction | assumption]).
    pose proof (Qc_neq_0_lt _ (pow_n_minus_1_pos Hr)) as Hne.
    subst q. simpl. field. exact Hne.
Qed.

Lemma closed_balance_n : B n = 0.
Proof.
  subst B. unfold closed_balance. destruct (Qc_eq_dec r 0) as [E|E].
  - pose proof (Qc_neq_0_lt _ n_ofZ_pos). field. assumption.
  - assert (Hr : 0 < r) by (destruct r_cases; [contradiction | assumption]).
    pose proof (Qc_neq_0_lt _ (pow_n_minus_1_pos Hr)) as Hne.
    subst q. field. exact Hne.
Qed.

Lemma closed_balance_step (k : nat) : B (S k) = B k - (M - B k * r).
Proof.
  subst B M. unfold closed_balance, payment.
  destruct (Qc_eq_dec r 0) as [E|E].
  - pose proof (Qc_neq_0_lt _ n_ofZ_pos). rewrite ofZ_succ, E. field.
    assumption.
  - assert (Hr : 0 < r) by (destruct r_cases; [contradiction | assumption]).
    pose proof (Qc_neq_0_lt _ (pow_n_minus_1_pos Hr)) as Hne.
    assert (Hq : q ^ n <> 0).
    { apply Qc_neq_0_lt. pose proof (pow_ge_1 n) as H1. qc_lra. }
    simpl. subst q. field. repeat split; assumption.
Qed.

Lemma closed_balance_pos (k : nat) : 0 < L -> (k < n)%nat -> 0 < B k.
Proof.
  intros HL Hk. subst B. unfold closed_balance.
  destruct (Qc_eq_dec r 0) as [E|E].
  - apply Qc_div_pos; [|exact n_ofZ_pos].
    assert (Hlt : #(Z.of_nat k) < #(Z.of_nat n)) by (apply ofZ_lt; lia).
    apply Qc_mult_pos; [assumption | qc_lra].
  - assert (Hr : 0 < r) by (destruct r_cases; [contradiction | assumption]).
    apply Qc_div_pos; [|exact (pow_n_minus_1_pos Hr)].
    pose proof (pow_lt_mono k n Hr Hk) as Hlt.
    subst q. apply Qc_mult_pos; [assumption | qc_lra].
Qed.

Lemma closed_balance_L0 (k : nat) : L = 0 -> B k = 0.
Proof.
  intros HL. subst B. unfold closed_balance. rewrite HL.
  destruct (Qc_eq_dec r 0); unfold Qcdiv; ring.
Qed.

Lemma payment_L0 : L = 0 -> M = 0.
Proof.
  intros HL. subst M. unfold payment. rewrite HL.
  destruct (Qc_eq_dec r 0); unfold Qcdiv; ring.
Qed.

Lemma L_cases : L = 0 \/ 0 < L.
Proof.
  destruct (Qcle_lt_or_eq _ _ L_nonneg) as [H|H]; [now right | now left].
Qed.

Lemma closed_balance_nonneg (k : nat) : (k <= n)%nat -> 0 <= B k.
Proof.
  intros Hk. destruct L_cases as [HL|HL].
  - rewrite (closed_balance_L0 k HL). apply Qcle_refl.
  - destruct (Nat.eq_dec k n) as [->|Hne].
    + rewrite closed_balance_n. apply Qcle_refl.
    + apply Qclt_le_weak, closed_balance_pos; [assumption | lia].
Qed.

Lemma closed_balance_mono (k : nat) : B (S k) <= B k.
Proof.
  subst B. unfold closed_balance.
  destruct (Qc_eq_dec r 0) as [E|E].
  - assert (Hlt : #(Z.of_nat k) < #(Z.of_nat (S k))) by (apply ofZ_lt; lia).
    unfold Qcdiv. apply Qcmult_le_compat_r.
    + apply Qc_mult_le_l; [assumption | qc_lra].
    + apply Qc_inv_nonneg, n_ofZ_pos.
  - assert (Hr : 0 < r) by (destruct r_cases; [contradiction | assumption]).
    pose proof (pow_step_lt k Hr) as Hlt.
    pose proof (pow_n_minus_1_pos Hr) as Hn.
    unfold Qcdiv. apply Qcmult_le_compat_r.
    + subst q. apply Qc_mult_le_l; [assumption | qc_lra].
    + apply Qc_inv_nonneg, Hn.
Qed.

Lemma closed_balance_mono_le (k m : nat) : (k <= m)%nat -> B m <= B k.
Proof.
  induction 1 as [|m Hkm IH].
  - apply Qcle_refl.
  - eapply Qcle_trans; [apply closed_balance_mono | exact IH].
Qed.

(** The monthly loop follows the closed form for as long as the schedule
    lasts, whatever the accumulators were when it started. *)
Lemma pay_months_closed (j k : nat) (i p : Qc) :
  (k + j <= n)%nat ->
  pay_months r M j {| balance := B k; interest_paid := i; principal_paid := p |}
  = {| balance := B (k + j);
       interest_paid := i + (#(Z.of_nat j) * M - (B k - B (k + j)));
       principal_paid := p + (B k - B (k + j)) |}.
Proof.
  revert k i p. induction j as [|j IH]; intros k i p Hk.
  - simpl. rewrite Nat.add_0_r. change (#0) with 0. f_equal; ring.
  - cbn [pay_months]. unfold pay_month.
    cbn [balance interest_paid principal_paid].
    replace (k + S j)%nat with (S k + j)%nat by lia.
    destruct (Num.ltb 0 (B k)) eqn:Hpos.
    + rewrite <- closed_balance_step. rewrite IH by lia.
      rewrite ofZ_succ. rewrite (closed_balance_step k). f_equal; ring.
    + assert (HL : L = 0).
      { destruct L_cases as [HL|HL]; [assumption|].
        pose proof (closed_balance_pos k HL ltac:(lia)) as HB.
        apply ltb_lt in HB. congruence. }
      rewrite <- (closed_balance_L0 (S k) HL) at 1. rewrite IH by lia.
      rewrite !(closed_balance_L0 _ HL), (payment_L0 HL). f_equal; ring.
Qed.

End Amortization.

(** * The schedule of a well-formed run *)

Lemma range_snoc (lo : Z) (len : nat) :
  range lo (S len) = range lo len ++ [(lo + Z.of_nat len)%Z].
Proof.
  revert lo. induction len as [|len IH]; intros lo.
  - simpl. now rewrite Z.add_0_r.
  - change (range lo (S (S len))) with (lo :: range (lo + 1) (S len)).
    rewrite IH. simpl. do 3 f_equal. lia.
Qed.

Lemma state_after_S (a : Assumptions) (k : nat) :
  state_after a (S k)
  = year_body a (monthly_rate a) (monthly_pi a) (Z.of_nat (S k))
      (state_after a k).
Proof.
  unfold state_after, loop. rewrite range_snoc, fold_left_app.
  replace (1 + Z.of_nat k)%Z with (Z.of_nat (S k)) by lia. reflexivity.
Qed.

Lemma pay_months_add (r M : Qc) (j k : nat) (l : Loan) :
  pay_months r M (j + k) l = pay_months r M k (pay_months r M j l).
Proof.
  revert l. induction j as [|j IH]; intros l; simpl; [reflexivity | apply IH].
Qed.

(** The balance never looks at the two accumulators. *)
Lemma pay_months_balance (r M : Qc) (k : nat) (l l' : Loan) :
  balance l = balance l' ->
  balance (pay_months r M k l) = balance (pay_months r M k l').
Proof.
  revert l l'. induction k as [|k IH]; intros l l' H; simpl; [exact H|].
  apply IH. unfold pay_month. rewrite H.
  destruct (Num.ltb 0 (balance l')); reflexivity.
Qed.

Lemma escalate_balance (a : Assumptions) (y : Z) (s : State) :
  curr_loan_balance (escalate a y s) = curr_loan_balance s.
Proof. unfold escalate. destruct (1 <? y)%Z; reflexivity. Qed.

(** The balance the yearly loop carries is the one of the month-by-month
    schedule, twelve months per year. *)
Lemma balance_after_year (a : Assumptions) (k : nat) :
  curr_loan_balance (state_after a k) = balance (loan_after a (12 * k)).
Proof.
  induction k as [|k IH].
  - reflexivity.
  - rewrite state_after_S. unfold year_body. cbn [curr_loan_balance].
    rewrite escalate_balance, IH. unfold pay_year, loan_after.
    replace (12 * S k)%nat with (12 * k + 12)%nat by lia.
    rewrite pay_months_add. apply pay_months_balance. reflexivity.
Qed.

Lemma pmt_payment (r L : Qc) (nper : Z) :
  (0 < nper)%Z -> - pmt r nper L = payment r L (Z.to_nat nper).
Proof.
  intros Hn. unfold pmt, payment. rewrite Z2Nat.id by lia.
  destruct (Qc_eq_dec r 0) as [E|E].
  - apply Qcopp_involutive.
  - rewrite Qcopp_involutive. destruct nper as [|p|p]; try lia. reflexivity.
Qed.

Section WellFormedRun.

Variable a : Assumptions.
Hypothesis wf : well_formed a.

Let r := monthly_rate a.
Let L := loan_amount a.
Let n := Z.to_nat (n_periods a).
Let M := monthly_pi a.

Lemma n_periods_cases : n_periods a = 180%Z \/ n_periods a = 360%Z.
Proof.
  unfold n_periods. destruct (wf_term a wf) as [H|H]; rewrite H; auto.
Qed.

Lemma n_periods_pos : (0 < n_periods a)%Z.
Proof. destruct n_periods_cases as [H|H]; rewrite H; lia. Qed.

Lemma months_ge_180 : (180 <= n)%nat.
Proof. subst n. destruct n_periods_cases as [H|H]; rewrite H; lia. Qed.

Lemma monthly_rate_nonneg : 0 <= r.
Proof.
  subst r. unfold monthly_rate. apply Qc_div_nonneg.
  - exact (wf_rate a wf).
  - now apply ofZ_pos.
Qed.

Lemma loan_amount_nonneg : 0 <= L.
Proof.
  subst L. unfold loan_amount, down_payment_dollars.
  pose proof (wf_price a wf) as Hp. pose proof (wf_down_hi a wf) as Hd.
  qc_nra.
Qed.

Lemma monthly_pi_payment : M = payment r L n.
Proof. apply pmt_payment, n_periods_pos. Qed.

Lemma loan_after_closed (k : nat) :
  (k <= n)%nat ->
  loan_after a k
  = {| balance := closed_balance r L n k;
       interest_paid := #(Z.of_nat k) * M - (L - closed_balance r L n k);
       principal_paid := L - closed_balance r L n k |}.
Proof.
  intros Hk. unfold loan_after. fold r M L.
  assert (Hn : (0 < n)%nat) by (pose proof months_ge_180; lia).
  rewrite <- (closed_balance_0 r L n monthly_rate_nonneg Hn) at 1.
  rewrite monthly_pi_payment.
  rewrite (pay_months_closed r L n monthly_rate_nonneg loan_amount_nonneg Hn
             k 0) by lia.
  rewrite (closed_balance_0 r L n monthly_rate_nonneg Hn). simpl (0 + k)%nat.
  f_equal; ring.
Qed.

End WellFormedRun.

(** * The rows the loop emits *)

Lemma rows_snoc (ys : list Z) (os rs gs : list Qc) (y : Z) (o r g : Qc) :
  length os = length ys -> length rs = length ys -> length gs = length ys ->
  rows (ys ++ [y]) (os ++ [o]) (rs ++ [r]) (gs ++ [g])
  = rows ys os rs gs ++ [mkYearResult y o r g].
Proof.
  revert os rs gs.
  induction ys as [|y0 ys IH]; intros [|o0 os] [|r0 rs] [|g0 gs];
    simpl; intros Ho Hr Hg; try discriminate; [reflexivity|].
  f_equal. apply IH; congruence.
Qed.

Lemma escalate_lists (a : Assumptions) (y : Z) (s : State) :
  years (escalate a y s) = years s
  /\ owner_net_outcome (escalate a y s) = owner_net_outcome s
  /\ renter_net_outcome (escalate a y s) = renter_net_outcome s
  /\ gap_data (escalate a y s) = gap_data s.
Proof. unfold escalate. destruct (1 <? y)%Z; repeat split. Qed.

Lemma escalate_portfolio (a : Assumptions) (y : Z) (s : State) :
  renter_portfolio (escalate a y s) = renter_portfolio s.
Proof. unfold escalate. destruct (1 <? y)%Z; reflexivity. Qed.

Lemma lists_length (a : Assumptions) (k : nat) :
  length (years (state_after a k)) = k
  /\ length (owner_net_outcome (state_after a k)) = k
  /\ length (renter_net_outcome (state_after a k)) = k
  /\ length (gap_data (state_after a k)) = k.
Proof.
  induction k as [|k (Hy & Ho & Hr & Hg)].
  - repeat split.
  - rewrite state_after_S. unfold year_body.
    cbn [years owner_net_outcome renter_net_outcome gap_data].
    destruct (escalate_lists a (Z.of_nat (S k)) (state_after a k))
      as (-> & -> & -> & ->).
    rewrite !length_app. simpl. repeat split; lia.
Qed.

Lemma results_after (a : Assumptions) (k : nat) :
  results_of (state_after a k) = map (year_result a) (seq 1 k).
Proof.
  induction k as [|k IH].
  - reflexivity.
  - rewrite seq_S, map_app. simpl map. rewrite <- IH.
    destruct (lists_length a k) as (Hy & Ho & Hr & Hg).
    unfold year_result. rewrite state_after_S.
    unfold results_of, year_body.
    cbn [years owner_net_outcome renter_net_outcome gap_data
         curr_home_value curr_loan_balance renter_portfolio].
    destruct (escalate_lists a (Z.of_nat (S k)) (state_after a k))
      as (-> & -> & -> & ->).
    apply rows_snoc; congruence.
Qed.

Lemma df_res_rows (a : Assumptions) :
  df_res a = map (year_result a) (seq 1 15).
Proof. unfold df_res, simulate. exact (results_after a 15). Qed.

(** * Year by year *)

Lemma df_res_nth (a : Assumptions) (y : nat) :
  (1 <= y <= 15)%nat -> nth_error (df_res a) (y - 1) = Some (year_result a y).
Proof.
  intros Hy. rewrite df_res_rows, nth_error_map, nth_error_seq.
  destruct (Nat.ltb_spec (y - 1) 15); [|lia].
  simpl. do 2 f_equal. lia.
Qed.

Lemma year_start_S (a : Assumptions) (k : nat) :
  year_start a (S k) = escalate a (Z.of_nat (S k)) (state_after a k).
Proof. unfold year_start. now rewrite Nat.sub_succ, Nat.sub_0_r. Qed.

(** Steps 2-7 of the body leave the six escalated variables alone. *)
Lemma state_after_costs (a : Assumptions) (k : nat) :
  let s := state_after a (S k) in
  let s1 := year_start a (S k) in
  curr_home_value s = curr_home_value s1
  /\ curr_rent_monthly s = curr_rent_monthly s1
  /\ curr_tax_bill s = curr_tax_bill s1
  /\ curr_hoa s = curr_hoa s1
  /\ curr_maint s = curr_maint s1
  /\ curr_insurance s = curr_insurance s1.
Proof.
  cbv zeta. rewrite state_after_S, year_start_S. unfold year_body.
  repeat split.
Qed.

Lemma state_after_portfolio (a : Assumptions) (k : nat) :
  renter_portfolio (state_after a (S k))
  = grow_portfolio a (monthly_pi a) (year_start a (S k)).
Proof. rewrite state_after_S, year_start_S. reflexivity. Qed.

Lemma year_start_portfolio (a : Assumptions) (k : nat) :
  renter_portfolio (year_start a (S k)) = renter_portfolio (state_after a k).
Proof. rewrite year_start_S. apply escalate_portfolio. Qed.

(** * More on the monthly loop *)

Lemma pay_months_S (r M : Qc) (k : nat) (l : Loan) :
  pay_months r M (S k) l = pay_month r M (pay_months r M k l).
Proof.
  replace (S k) with (k + 1)%nat by lia. now rewrite pay_months_add.
Qed.

Lemma pay_months_zero (r M : Qc) (k : nat) (i p : Qc) :
  pay_months r M k {| balance := 0; interest_paid := i; principal_paid := p |}
  = {| balance := 0; interest_paid := i; principal_paid := p |}.
Proof. induction k as [|k IH]; [reflexivity | exact IH]. Qed.

(** Starting the accumulators at [i] and [p] instead of 0 only shifts them. *)
Lemma pay_months_acc (r M : Qc) (k : nat) (b i p : Qc) :
  let l0 := pay_months r M k
              {| balance := b; interest_paid := 0; principal_paid := 0 |} in
  pay_months r M k {| balance := b; interest_paid := i; principal_paid := p |}
  = {| balance := balance l0;
       interest_paid := i + interest_paid l0;
       principal_paid := p + principal_paid l0 |}.
Proof.
  cbv zeta. revert b i p. induction k as [|k IH]; intros b i p.
  - simpl. f_equal; ring.
  - cbn [pay_months]. unfold pay_month.
    cbn [balance interest_paid principal_paid].
    destruct (Num.ltb 0 b).
    + rewrite IH. rewrite (IH _ (0 + _) (0 + _)).
      cbn [balance interest_paid principal_paid]. f_equal; ring.
    + apply IH.
Qed.

(** The totals of [loan_after] are the sums of the yearly totals the loop
    computes on lines 119-129. *)
Lemma loan_after_year (a : Assumptions) (k : nat) :
  let l := pay_year (monthly_rate a) (monthly_pi a)
             (curr_loan_balance (state_after a k)) in
  interest_paid (loan_after a (12 * S k))
  = interest_paid (loan_after a (12 * k)) + interest_paid l
  /\ principal_paid (loan_after a (12 * S k))
     = principal_paid (loan_after a (12 * k)) + principal_paid l.
Proof.
  cbv zeta. rewrite balance_after_year. unfold pay_year, loan_after.
  replace (12 * S k)%nat with (12 * k + 12)%nat by lia.
  rewrite pay_months_add.
  destruct (pay_months (monthly_rate a) (monthly_pi a) (12 * k) _)
    as [b i p].
  rewrite pay_months_acc. cbn [balance interest_paid principal_paid].
  split; reflexivity.
Qed.

Lemma max_0_nonneg (x : Qc) : 0 <= x -> Num.max 0 x = x.
Proof.
  intros Hx. unfold Num.max. destruct (Num.ltb 0 x) eqn:E; [reflexivity|].
  apply ltb_ge in E. now apply Qcle_antisym.
Qed.

Lemma months_to_nat (a : Assumptions) :
  well_formed a -> #(Z.of_nat (Z.to_nat (n_periods a))) = #(n_periods a).
Proof.
  intros wf. rewrite Z2Nat.id; [reflexivity|].
  pose proof (n_periods_pos a wf). lia.
Qed.

Lemma div12_zero (x : Qc) : x / #12 = 0 <-> x = 0.
Proof.
  split; intros H.
  - assert (H12 : #12 <> 0) by (apply Qc_neq_0_lt; now apply ofZ_pos).
    rewrite <- (Qcmult_div_r x #12 H12), H. ring.
  - rewrite H. unfold Qcdiv. ring.
Qed.

(** The payment in the form [pv * (1 + r)^n / (((1 + r)^n - 1) / r)]. *)
Lemma payment_compound_form (r L : Qc) (n : nat) :
  0 < r -> (0 < n)%nat ->
  payment r L n = L * (1 + r) ^ n / (((1 + r) ^ n - 1) / r).
Proof.
  intros Hr Hn. unfold payment.
  assert (Hr0 : 0 <= r) by now apply Qclt_le_weak.
  pose proof (Qc_neq_0_lt _ (pow_n_minus_1_pos r n Hr0 Hn Hr)) as Hne.
  assert (Hq : (1 + r) ^ n <> 0).
  { apply Qc_neq_0_lt. pose proof (pow_ge_1 r Hr0 n) as H1. qc_lra. }
  pose proof (Qc_neq_0_lt _ Hr) as Hrne.
  destruct (Qc_eq_dec r 0) as [E|_]; [contradiction|].
  field. repeat split; assumption.
Qed.

Lemma Qc_mult_nonneg (x y : Qc) : 0 <= x -> 0 <= y -> 0 <= x * y.
Proof. intros Hx Hy. qc_nra. Qed.

Lemma neg_mult_nonneg (x y u : Qc) : x < y -> 0 <= u -> (x - y) * u <= 0.
Proof. intros Hxy Hu. qc_nra. Qed.

Lemma neg_mult_pos (x y u : Qc) : x < y -> 0 < u -> (x - y) * u < 0.
Proof. intros Hxy Hu. qc_nra. Qed.

Lemma pay_month_floor (r M : Qc) (l : Loan) :
  0 <= r -> 0 <= M -> - M <= balance (pay_month r M l).
Proof.
  intros Hr HM. unfold pay_month.
  destruct (Num.ltb 0 (balance l)) eqn:Hpos; cbn [balance].
  - apply ltb_lt in Hpos. revert Hpos. generalize (balance l).
    intros b Hpos. qc_nra.
  - qc_lra.
Qed.

Lemma pay_month_interest (r M : Qc) (l : Loan) :
  0 <= r -> interest_paid l <= interest_paid (pay_month r M l).
Proof.
  intros Hr. unfold pay_month.
  destruct (Num.ltb 0 (balance l)) eqn:Hpos; cbn [interest_paid].
  - apply ltb_lt in Hpos. revert Hpos.
    generalize (balance l), (interest_paid l).
    intros b i Hpos. qc_nra.
  - apply Qcle_refl.
Qed.

Lemma pay_months_interest (r M : Qc) (k : nat) (l : Loan) :
  0 <= r -> interest_paid l <= interest_paid (pay_months r M k l).
Proof.
  intros Hr. revert l. induction k as [|k IH]; intros l.
  - apply Qcle_refl.
  - cbn [pay_months]. eapply Qcle_trans; [|apply IH].
    now apply pay_month_interest.
Qed.

Lemma Qc_mult_pos_reg (x y : Qc) : 0 < x -> 0 <= x * y -> 0 <= y.
Proof.
  intros Hx Hxy. apply Qcnot_lt_le. intros Hy.
  assert (H : x * y < 0) by qc_nra.
  now apply Qclt_not_le in H.
Qed.


(** * Sample assumptions *)

(** Comparisons between closed numbers, by evaluation. *)
Ltac qc_closed :=
  first [ apply Qc_is_canon; vm_compute; reflexivity
        | vm_compute; reflexivity
        | vm_compute; intro; discriminate ].

Lemma baseline_well_formed : well_formed baseline.
Proof. constructor; try qc_closed. left. reflexivity. Qed.

Lemma zero_rate_30_well_formed : well_formed zero_rate_30.
Proof. constructor; try qc_closed. right. reflexivity. Qed.

Lemma exempt_well_formed : well_formed exempt.
Proof. constructor; try qc_closed. left. reflexivity. Qed.

Lemma exempt_untaxed_well_formed : well_formed exempt_untaxed.
Proof. constructor; try qc_closed. left. reflexivity. Qed.

(** The derived values of the baseline: a loan of 440000, a market value of
    590000, 160000 of cash invested, and a monthly payment of 3772.66. *)
Example baseline_initial_values :
  loan_amount baseline = #440000
  /\ initial_market_value baseline = #590000
  /\ initial_cash_invested baseline = #160000
  /\ #377266 / #100 < monthly_pi baseline < #377267 / #100.
Proof.
  refine (conj _ (conj _ (conj _ (conj _ _)))); qc_closed.
Qed.

(** * The fixed payment *)

(** C1. The fixed monthly payment [monthly_pi] is the annuity value
    [r * loan / (1 - (1 + r)^(-n))] with [r = mortgage_rate / 12],
    [n = term * 12] and [loan = price * (1 - down payment fraction)] when the
    rate is not zero, and [loan / n] when the rate is zero. *)
Theorem monthly_pi_annuity (a : Assumptions) :
  well_formed a ->
  let r := mortgage_rate a / #12 in
  let n := (mortgage_term a * 12)%Z in
  let loan := purchase_price a * (1 - down_payment_percent a) in
  (0 < mortgage_rate a ->
   monthly_pi a = r * loan / (1 - Num.pow (1 + r) (- n)))
  /\ (mortgage_rate a = 0 -> monthly_pi a = loan / #n).
Proof.
  intros _ r n loan.
  assert (Hloan : loan_amount a = loan).
  { unfold loan_amount, down_payment_dollars. subst loan. ring. }
  unfold monthly_pi, pmt, monthly_rate, n_periods. rewrite Hloan.
  subst r n. split; intros Hrate.
  - destruct (Qc_eq_dec (mortgage_rate a / #12) 0) as [E|E].
    + apply (proj1 (div12_zero _)) in E. rewrite E in Hrate.
      now apply Qclt_not_eq in Hrate.
    + apply Qcopp_involutive.
  - destruct (Qc_eq_dec (mortgage_rate a / #12) 0) as [E|E].
    + apply Qcopp_involutive.
    + exfalso. apply E. now apply div12_zero.
Qed.

Lemma monthly_pi_annuity_witness :
  well_formed baseline /\ 0 < mortgage_rate baseline
  /\ well_formed zero_rate_30 /\ mortgage_rate zero_rate_30 = 0
  /\ monthly_pi baseline
     = mortgage_rate baseline / #12
       * (purchase_price baseline * (1 - down_payment_percent baseline))
       / (1 - Num.pow (1 + mortgage_rate baseline / #12) (- (15 * 12)))
  /\ monthly_pi zero_rate_30
     = purchase_price baseline * (1 - down_payment_percent baseline)
       / #(30 * 12).
Proof.
  assert (H1 : 0 < mortgage_rate baseline) by qc_closed.
  refine (conj baseline_well_formed (conj H1
           (conj zero_rate_30_well_formed (conj eq_refl (conj _ _))))).
  - exact (proj1 (monthly_pi_annuity baseline baseline_well_formed) H1).
  - exact (proj2 (monthly_pi_annuity zero_rate_30 zero_rate_30_well_formed)
             eq_refl).
Defined.

(** * Amortization *)

(** C2. Running the monthly update for all [n = term * 12] months from
    [balance = loan_amount] retires the loan: the principal paid over the
    [n] months adds up to [loan_amount], the final balance is 0, and the
    interest and the principal paid together are [n] payments of
    [monthly_pi].  (No condition on the rate is needed; it holds for rate
    greater than 0 in particular.) *)
Theorem amortization_retires_loan (a : Assumptions) :
  well_formed a ->
  let l := loan_after a (Z.to_nat (n_periods a)) in
  principal_paid l = loan_amount a
  /\ balance l = 0
  /\ interest_paid l + principal_paid l = monthly_pi a * #(n_periods a).
Proof.
  intros wf l. subst l.
  rewrite (loan_after_closed a wf) by lia.
  cbn [principal_paid balance interest_paid].
  assert (Hn : (0 < Z.to_nat (n_periods a))%nat)
    by (pose proof (months_ge_180 a wf); lia).
  rewrite (closed_balance_n _ _ _ (monthly_rate_nonneg a wf) Hn).
  rewrite (months_to_nat a wf).
  repeat split; ring.
Qed.

Lemma amortization_retires_loan_witness :
  well_formed baseline
  /\ principal_paid (loan_after baseline 180) = loan_amount baseline
  /\ balance (loan_after baseline 180) = 0
  /\ interest_paid (loan_after baseline 180)
     + principal_paid (loan_after baseline 180)
     = monthly_pi baseline * #180.
Proof.
  split.
  - exact baseline_well_formed.
  - exact (amortization_retires_loan baseline baseline_well_formed).
Defined.

(** For a 15-year loan the schedule ends with the simulation: the balance
    the loop leaves after year 15 is 0. *)
Corollary term_15_paid_off (a : Assumptions) :
  well_formed a -> mortgage_term a = 15%Z ->
  curr_loan_balance (simulate a) = 0.
Proof.
  intros wf Hterm. unfold simulate. rewrite balance_after_year.
  assert (Hn : Z.to_nat (n_periods a) = 180%nat)
    by (unfold n_periods; rewrite Hterm; reflexivity).
  rewrite (loan_after_closed a wf) by lia. cbn [balance].
  change (12 * 15)%nat with 180%nat. rewrite <- Hn.
  apply closed_balance_n; [exact (monthly_rate_nonneg a wf) | lia].
Qed.

(** In exact arithmetic the schedule of a well-formed run never overshoots:
    on each of its 180 months the guarded update coincides with
    [max(0, balance - (M - balance * r))] and every year-end balance is
    non-negative.  This is a statement about the exact model only; in
    binary64 the last payment leaves a residue of rounding size, of either
    sign (see [balance_negative_in_binary64]). *)
Lemma balance_nonneg_in_exact_arithmetic (a : Assumptions) :
  well_formed a ->
  (forall k : nat, (k < 180)%nat ->
     let b := balance (loan_after a k) in
     balance (loan_after a (S k))
     = Num.max 0 (b - (monthly_pi a - b * monthly_rate a)))
  /\ (forall y : nat, (1 <= y <= 15)%nat ->
        0 <= curr_loan_balance (state_after a y)).
Proof.
  intros wf.
  pose proof (months_ge_180 a wf) as Hn.
  pose proof (monthly_rate_nonneg a wf) as Hr.
  pose proof (loan_amount_nonneg a wf) as HL.
  assert (Hn0 : (0 < Z.to_nat (n_periods a))%nat) by lia.
  split.
  - intros k Hk b. subst b.
    rewrite !(loan_after_closed a wf) by lia. cbn [balance].
    rewrite (monthly_pi_payment a wf).
    rewrite <- (closed_balance_step _ _ _ Hr Hn0).
    symmetry. apply max_0_nonneg.
    apply (closed_balance_nonneg _ _ _ Hr HL Hn0). lia.
  - intros y Hy. rewrite balance_after_year.
    rewrite (loan_after_closed a wf) by lia. cbn [balance].
    apply (closed_balance_nonneg _ _ _ Hr HL Hn0). lia.
Qed.


(** At the same input the binary64 balances respect the two bounds of the
    amended statement: year 15 ends above [- M] and below year 14. *)
Example amended_bounds_in_binary64 :
  let r := Binary64.sample_rate in
  let M := Binary64.sample_payment in
  let L := Binary64.sample_loan in
  PrimFloat.leb (PrimFloat.opp M) (Binary64.balance_after r M 15 L) = true
  /\ PrimFloat.leb (Binary64.balance_after r M 15 L)
       (Binary64.balance_after r M 14 L) = true.
Proof. vm_compute. split; reflexivity. Qed.



(** The guard of the monthly loop is not a clamp: from a state whose balance
    is below the principal part of the payment, one month leaves a negative
    balance, where [max(0, .)] would leave 0.  In exact arithmetic no such
    state is reached from well-formed assumptions; in binary64 the last
    payment of a loan reaches one. *)
Remark pay_month_is_not_a_clamp :
  let l := {| balance := 1; interest_paid := 0; principal_paid := 0 |} in
  balance (pay_month 0 #100 l) = - #99
  /\ Num.max 0 (balance l - (#100 - balance l * 0)) = 0.
Proof. split; qc_closed. Qed.

(** * Escalation *)

(** C4. In year 1 the cash flows are computed from the initial values of
    rent, HOA, maintenance, insurance and tax bill; the home value alone has
    been multiplied, once, by [1 + appreciation_rate], and the first row of
    the output is computed from exactly these values. *)
Theorem year_one_freeze (a : Assumptions) :
  let s1 := year_start a 1 in
  let imv := initial_market_value a in
  let M := monthly_pi a in
  curr_rent_monthly s1 = monthly_rent a
  /\ curr_hoa s1 = hoa_monthly a
  /\ curr_maint s1 = imv * maintenance_rate a
  /\ curr_insurance s1 = imv * insurance_rate a
  /\ curr_tax_bill s1 = initial_tax_bill a
  /\ curr_home_value s1 = imv * (1 + appreciation_rate a)
  /\ owner_annual_spend M s1
     = M * #12 + hoa_monthly a * #12 + initial_tax_bill a
       + imv * maintenance_rate a + imv * insurance_rate a
  /\ renter_annual_spend s1 = monthly_rent a * #12
  /\ exists row, hd_error (df_res a) = Some row
     /\ year row = 1%Z
     /\ renter_equity row
        = initial_cash_invested a * (1 + cost_of_capital a)
          + (owner_annual_spend M s1 - renter_annual_spend s1)
     /\ owner_equity row
        = imv * (1 + appreciation_rate a)
          - imv * (1 + appreciation_rate a) * selling_costs_pct a
          - balance (pay_year (monthly_rate a) M (loan_amount a))
     /\ benefit row = owner_equity row - renter_equity row.
Proof.
  cbv zeta. repeat (split; [reflexivity|]).
  exists (year_result a 1). split.
  - exact (df_res_nth a 1 ltac:(lia)).
  - unfold year_result. rewrite state_after_S. repeat split.
Qed.

(** C5. From year 2 onward the tax bill of a year is the previous year's
    bill times [1 + min(inflation_rate, tax_cap_rate)]; when inflation
    exceeds the cap the factor is [1 + tax_cap_rate]. *)
Theorem tax_bill_capped_growth (a : Assumptions) (y : nat) :
  (1 <= y < 15)%nat ->
  curr_tax_bill (year_start a (S y))
  = curr_tax_bill (year_start a y)
    * (1 + Num.min (inflation_rate a) (tax_cap_rate a))
  /\ (tax_cap_rate a < inflation_rate a ->
      curr_tax_bill (year_start a (S y))
      = curr_tax_bill (year_start a y) * (1 + tax_cap_rate a)).
Proof.
  intros Hy. destruct y as [|k]; [lia|].
  assert (Hstep : curr_tax_bill (year_start a (S (S k)))
                  = curr_tax_bill (year_start a (S k)) * (1 + tax_growth a)).
  { rewrite (year_start_S a (S k)).
    destruct (state_after_costs a k) as (_ & _ & <- & _).
    unfold escalate.
    replace (1 <? Z.of_nat (S (S k)))%Z with true
      by (symmetry; apply Z.ltb_lt; lia).
    reflexivity. }
  split; [exact Hstep|].
  intros Hcap. rewrite Hstep. unfold tax_growth, Num.min.
  apply ltb_lt in Hcap. now rewrite Hcap.
Qed.

Lemma tax_bill_capped_growth_witness :
  tax_cap_rate exempt < inflation_rate exempt
  /\ curr_tax_bill (year_start exempt 2)
     = curr_tax_bill (year_start exempt 1)
       * (1 + Num.min (inflation_rate exempt) (tax_cap_rate exempt))
  /\ curr_tax_bill (year_start exempt 2)
     = curr_tax_bill (year_start exempt 1) * (1 + tax_cap_rate exempt).
Proof.
  assert (Hcap : tax_cap_rate exempt < inflation_rate exempt) by qc_closed.
  assert (Hy : (1 <= 1 < 15)%nat) by lia.
  exact (conj Hcap
           (conj (proj1 (tax_bill_capped_growth exempt 1 Hy))
                 (proj2 (tax_bill_capped_growth exempt 1 Hy) Hcap))).
Defined.

(** * Owner cash flow *)

(** C6. In every simulated year the owner's annual spend is twelve times the
    fixed payment plus the year's HOA, tax, maintenance and insurance, and
    that whole amount enters the renter's portfolio update.  The balance of
    the loan plays no part: one pass of the loop body from a state whose
    loan is already paid off leaves the balance at 0 and still charges
    [12 * M]. *)
Theorem owner_spend_has_full_payment (a : Assumptions) :
  (forall y : nat, (1 <= y <= 15)%nat ->
     let s := state_after a y in
     let spend := owner_annual_spend (monthly_pi a) (year_start a y) in
     spend = #12 * monthly_pi a
             + (#12 * curr_hoa s + curr_tax_bill s + curr_maint s
                + curr_insurance s)
     /\ renter_portfolio s
        = renter_portfolio (state_after a (y - 1)) * (1 + cost_of_capital a)
          + (spend - #12 * curr_rent_monthly s))
  /\ (forall (r M : Qc) (yr : Z) (s : State),
        curr_loan_balance s = 0 ->
        let s' := year_body a r M yr s in
        curr_loan_balance s' = 0
        /\ renter_portfolio s'
           = renter_portfolio s * (1 + cost_of_capital a)
             + (#12 * M
                + (#12 * curr_hoa s' + curr_tax_bill s' + curr_maint s'
                   + curr_insurance s')
                - #12 * curr_rent_monthly s')).
Proof.
  split.
  - intros [|k] Hy; [lia|]. cbv zeta.
    destruct (state_after_costs a k) as (_ & -> & -> & -> & -> & ->).
    rewrite state_after_portfolio.
    unfold grow_portfolio, cash_flow_diff, owner_annual_spend,
      renter_annual_spend.
    rewrite year_start_portfolio, Nat.sub_succ, Nat.sub_0_r. split; ring.
  - intros r M yr s Hbal. cbv zeta. unfold year_body.
    cbn [curr_loan_balance renter_portfolio curr_hoa curr_tax_bill curr_maint
         curr_insurance curr_rent_monthly].
    rewrite escalate_balance, Hbal. unfold pay_year.
    rewrite pay_months_zero. cbn [balance]. split; [reflexivity|].
    unfold grow_portfolio, cash_flow_diff, owner_annual_spend,
      renter_annual_spend.
    rewrite escalate_portfolio. ring.
Qed.

Lemma owner_spend_has_full_payment_witness :
  owner_annual_spend (monthly_pi baseline) (year_start baseline 15)
  = #12 * monthly_pi baseline
    + (#12 * curr_hoa (state_after baseline 15)
       + curr_tax_bill (state_after baseline 15)
       + curr_maint (state_after baseline 15)
       + curr_insurance (state_after baseline 15))
  /\ curr_loan_balance (simulate baseline) = 0
  /\ curr_loan_balance
       (year_body baseline (monthly_rate baseline) (monthly_pi baseline) 16
          (simulate baseline)) = 0.
Proof.
  assert (Hy : (1 <= 15 <= 15)%nat) by lia.
  pose proof (term_15_paid_off baseline baseline_well_formed eq_refl) as Hpaid.
  exact (conj (proj1 (proj1 (owner_spend_has_full_payment baseline) 15%nat Hy))
           (conj Hpaid
              (proj1 (proj2 (owner_spend_has_full_payment baseline)
                        (monthly_rate baseline) (monthly_pi baseline) 16%Z
                        (simulate baseline) Hpaid)))).
Defined.

(** * Initial values *)

(** C7 as written does not hold: with an exemption above the price and a tax
    rate of 0 the initial tax bill is 0, not negative. *)
Lemma initial_tax_bill_not_negative :
  well_formed exempt_untaxed
  /\ purchase_price exempt_untaxed < homestead_exemption exempt_untaxed
  /\ initial_tax_bill exempt_untaxed = 0
  /\ ~ initial_tax_bill exempt_untaxed < 0.
Proof.
  assert (H0 : initial_tax_bill exempt_untaxed = 0) by qc_closed.
  refine (conj exempt_untaxed_well_formed (conj _ (conj H0 _))).
  - qc_closed.
  - rewrite H0. apply Qcle_not_lt, Qcle_refl.
Qed.

(** C7, amended.  [initial_market_value] is the price plus the recaptured
    part of the renovation; [initial_cash_invested] is the down payment plus
    the renovation cost and seeds the renter's portfolio;
    [initial_tax_bill] is [(price - exemption) * assessed fraction * tax
    rate], it enters year 1 unclamped, and the run still emits its fifteen
    rows.  When the exemption exceeds the price the bill is never positive,
    and it is strictly negative when the assessed fraction and the tax rate
    are both positive. *)
Theorem initial_values (a : Assumptions) :
  initial_market_value a
  = purchase_price a + renovation_cost a * reno_recapture a
  /\ initial_cash_invested a
     = purchase_price a * down_payment_percent a + renovation_cost a
  /\ renter_portfolio (init a) = initial_cash_invested a
  /\ initial_tax_bill a
     = (purchase_price a - homestead_exemption a) * assessed_value_pct a
       * tax_rate a
  /\ curr_tax_bill (year_start a 1) = initial_tax_bill a
  /\ length (df_res a) = 15%nat
  /\ (well_formed a -> purchase_price a < homestead_exemption a ->
      initial_tax_bill a <= 0
      /\ (0 < assessed_value_pct a -> 0 < tax_rate a ->
          initial_tax_bill a < 0)).
Proof.
  repeat (split; [reflexivity|]).
  intros wf Hex. unfold initial_tax_bill, taxable_value_base.
  rewrite <- Qcmult_assoc.
  split.
  - apply neg_mult_nonneg; [exact Hex|].
    apply Qc_mult_nonneg; [exact (wf_assessed a wf) | exact (wf_tax_rate a wf)].
  - intros Ha Ht. apply neg_mult_pos; [exact Hex|].
    now apply Qc_mult_pos.
Qed.

Lemma initial_values_witness :
  well_formed exempt
  /\ purchase_price exempt < homestead_exemption exempt
  /\ 0 < assessed_value_pct exempt
  /\ 0 < tax_rate exempt
  /\ initial_tax_bill exempt <= 0
  /\ initial_tax_bill exempt < 0.
Proof.
  assert (Hex : purchase_price exempt < homestead_exemption exempt)
    by qc_closed.
  assert (Ha : 0 < assessed_value_pct exempt) by qc_closed.
  assert (Ht : 0 < tax_rate exempt) by qc_closed.
  pose proof (proj2 (proj2 (proj2 (proj2 (proj2 (proj2
                (initial_values exempt)))))) exempt_well_formed Hex)
    as [Hle Hlt].
  exact (conj exempt_well_formed
           (conj Hex (conj Ha (conj Ht (conj Hle (Hlt Ha Ht)))))).
Defined.

(** * The shape of the output *)

(** The loop always emits fifteen rows, for the years 1 to 15 in this
    order. *)
Lemma df_res_shape (a : Assumptions) :
  length (df_res a) = 15%nat /\ map year (df_res a) = range 1 15.
Proof. rewrite df_res_rows. split; reflexivity. Qed.

(** * Noninterference of the renter side *)

Lemma year_body_renter_view (a1 a2 : Assumptions) (r1 r2 M : Qc) (yr : Z)
  (s1 s2 : State) :
  agree_off_sale a1 a2 ->
  renter_view s1 = renter_view s2 ->
  renter_view (year_body a1 r1 M yr s1) = renter_view (year_body a2 r2 M yr s2).
Proof.
  intros Hagree Hview. unfold renter_view in *.
  injection Hview as Hrent Htax Hhoa Hmaint Hins Hport Hout.
  unfold agree_off_sale in Hagree.
  destruct Hagree as (_ & _ & _ & _ & _ & _ & _ & _ & _ & _ & _ & _ & Hcap
                      & Hinfl & Hrapp & Hcoc & _).
  unfold year_body, grow_portfolio, cash_flow_diff, owner_annual_spend,
    renter_annual_spend, escalate, tax_growth.
  destruct (1 <? yr)%Z;
    cbn [curr_rent_monthly curr_tax_bill curr_hoa curr_maint curr_insurance
         renter_portfolio renter_net_outcome];
    rewrite ?Hrent, ?Htax, ?Hhoa, ?Hmaint, ?Hins, ?Hport, ?Hout, ?Hcap,
      ?Hinfl, ?Hrapp, ?Hcoc; reflexivity.
Qed.

Lemma agree_monthly_pi (a1 a2 : Assumptions) :
  agree_off_sale a1 a2 -> monthly_pi a1 = monthly_pi a2.
Proof.
  intros (Hp & Hd & Hr & Ht & _).
  unfold monthly_pi, monthly_rate, n_periods, loan_amount,
    down_payment_dollars.
  now rewrite Hp, Hd, Hr, Ht.
Qed.

Lemma agree_init (a1 a2 : Assumptions) :
  agree_off_sale a1 a2 -> renter_view (init a1) = renter_view (init a2).
Proof.
  intros (Hp & Hd & _ & _ & Hreno & Hrec & Hhoa & Hins & Hmaint & Htax & Hass
          & Hhs & _ & _ & _ & _ & Hrent).
  unfold renter_view, init, initial_tax_bill, taxable_value_base,
    initial_market_value, initial_cash_invested, down_payment_dollars.
  cbn [curr_rent_monthly curr_tax_bill curr_hoa curr_maint curr_insurance
       renter_portfolio renter_net_outcome].
  now rewrite Hp, Hd, Hreno, Hrec, Hhoa, Hins, Hmaint, Htax, Hass, Hhs, Hrent.
Qed.

Lemma agree_state_after (a1 a2 : Assumptions) (k : nat) :
  agree_off_sale a1 a2 ->
  renter_view (state_after a1 k) = renter_view (state_after a2 k).
Proof.
  intros Hagree. induction k as [|k IH].
  - now apply agree_init.
  - rewrite !state_after_S, (agree_monthly_pi a1 a2 Hagree).
    now apply year_body_renter_view.
Qed.

(** C9. Two runs whose assumptions differ at most in the appreciation rate
    and the selling-costs fraction report the same renter equity in every
    year. *)
Theorem renter_side_noninterference (a1 a2 : Assumptions) :
  agree_off_sale a1 a2 ->
  map renter_equity (df_res a1) = map renter_equity (df_res a2).
Proof.
  intros Hagree. rewrite !df_res_rows, !map_map. apply map_ext.
  intros y. unfold year_result. cbn [renter_equity].
  pose proof (agree_state_after a1 a2 y Hagree) as H.
  unfold renter_view in H. now injection H.
Qed.

Lemma renter_side_noninterference_witness :
  agree_off_sale baseline (set_sale baseline (#10 / #100) 0)
  /\ map renter_equity (df_res baseline)
     = map renter_equity (df_res (set_sale baseline (#10 / #100) 0)).
Proof.
  assert (H : agree_off_sale baseline (set_sale baseline (#10 / #100) 0))
    by (repeat split).
  exact (conj H (renter_side_noninterference _ _ H)).
Defined.

(** * The 30-year loan within the horizon *)

(** C10. With a 30-year term and a positive loan, the balance at the end of
    every simulated year is strictly positive, and it is that balance which
    the year's owner equity is reduced by. *)
Theorem term_30_balance_positive (a : Assumptions) :
  well_formed a -> mortgage_term a = 30%Z -> 0 < loan_amount a ->
  forall y : nat, (1 <= y <= 15)%nat ->
    0 < curr_loan_balance (state_after a y)
    /\ nth_error (df_res a) (y - 1)
       = Some (year_result a y)
    /\ owner_equity (year_result a y)
       = curr_home_value (state_after a y)
         - curr_home_value (state_after a y) * selling_costs_pct a
         - curr_loan_balance (state_after a y).
Proof.
  intros wf Hterm HL y Hy.
  pose proof (monthly_rate_nonneg a wf) as Hr.
  assert (Hn : Z.to_nat (n_periods a) = 360%nat)
    by (unfold n_periods; rewrite Hterm; reflexivity).
  split; [|split].
  - rewrite balance_after_year.
    rewrite (loan_after_closed a wf) by lia. cbn [balance].
    apply (closed_balance_pos _ _ _ Hr); [lia | exact HL | lia].
  - now apply df_res_nth.
  - reflexivity.
Qed.

Lemma term_30_balance_positive_witness :
  well_formed zero_rate_30 /\ mortgage_term zero_rate_30 = 30%Z
  /\ 0 < loan_amount zero_rate_30
  /\ 0 < curr_loan_balance (state_after zero_rate_30 15).
Proof.
  assert (HL : 0 < loan_amount zero_rate_30) by qc_closed.
  refine (conj zero_rate_30_well_formed (conj eq_refl (conj HL _))).
  refine (proj1 (term_30_balance_positive zero_rate_30
                   zero_rate_30_well_formed eq_refl HL 15%nat _)).
  lia.
Defined.

(** * Escalation in closed form *)

Lemma escalate_later (a : Assumptions) (k : nat) (s : State) :
  escalate a (Z.of_nat (S (S k))) s
  = {| curr_home_value := curr_home_value s * (1 + appreciation_rate a);
       curr_rent_monthly := curr_rent_monthly s * (1 + rent_appreciation a);
       curr_tax_bill := curr_tax_bill s * (1 + tax_growth a);
       curr_hoa := curr_hoa s * (1 + inflation_rate a);
       curr_maint := curr_maint s * (1 + inflation_rate a);
       curr_insurance := curr_insurance s * (1 + inflation_rate a);
       curr_loan_balance := curr_loan_balance s;
       renter_portfolio := renter_portfolio s;
       years := years s;
       owner_net_outcome := owner_net_outcome s;
       renter_net_outcome := renter_net_outcome s;
       gap_data := gap_data s |}.
Proof.
  unfold escalate.
  replace (1 <? Z.of_nat (S (S k)))%Z with true
    by (symmetry; apply Z.ltb_lt; lia).
  reflexivity.
Qed.

Lemma home_value_after (a : Assumptions) (k : nat) :
  curr_home_value (state_after a k)
  = initial_market_value a * (1 + appreciation_rate a) ^ k.
Proof.
  induction k as [|k IH].
  - simpl. unfold state_after. simpl. ring.
  - destruct (state_after_costs a k) as (-> & _).
    rewrite year_start_S.
    replace (curr_home_value (escalate a (Z.of_nat (S k)) (state_after a k)))
      with (curr_home_value (state_after a k) * (1 + appreciation_rate a))
      by (unfold escalate; destruct (1 <? Z.of_nat (S k))%Z; reflexivity).
    rewrite IH. simpl. ring.
Qed.

Lemma costs_after (a : Assumptions) (k : nat) :
  let s := state_after a (S k) in
  curr_rent_monthly s = monthly_rent a * (1 + rent_appreciation a) ^ k
  /\ curr_hoa s = hoa_monthly a * (1 + inflation_rate a) ^ k
  /\ curr_maint s
     = initial_market_value a * maintenance_rate a * (1 + inflation_rate a) ^ k
  /\ curr_insurance s
     = initial_market_value a * insurance_rate a * (1 + inflation_rate a) ^ k
  /\ curr_tax_bill s = initial_tax_bill a * (1 + tax_growth a) ^ k.
Proof.
  cbv zeta. induction k as [|k (Hrent & Hhoa & Hmaint & Hins & Htax)].
  - rewrite state_after_S. simpl. repeat split; ring.
  - destruct (state_after_costs a (S k)) as (_ & -> & -> & -> & -> & ->).
    rewrite year_start_S, escalate_later.
    cbn [curr_rent_monthly curr_hoa curr_maint curr_insurance curr_tax_bill].
    rewrite Hrent, Hhoa, Hmaint, Hins, Htax. simpl. repeat split; ring.
Qed.

(** X1. Closed form of the escalation: in year [y] the home value has been
    appreciated [y] times, while rent, HOA, maintenance, insurance and the
    tax bill have been escalated [y - 1] times, each by its own rate. *)
Theorem escalation_closed_form (a : Assumptions) (y : nat) :
  (1 <= y <= 15)%nat ->
  let s := year_start a y in
  let imv := initial_market_value a in
  let infl := 1 + inflation_rate a in
  curr_home_value s = imv * (1 + appreciation_rate a) ^ y
  /\ curr_rent_monthly s = monthly_rent a * (1 + rent_appreciation a) ^ (y - 1)
  /\ curr_hoa s = hoa_monthly a * infl ^ (y - 1)
  /\ curr_maint s = imv * maintenance_rate a * infl ^ (y - 1)
  /\ curr_insurance s = imv * insurance_rate a * infl ^ (y - 1)
  /\ curr_tax_bill s
     = initial_tax_bill a
       * (1 + Num.min (inflation_rate a) (tax_cap_rate a)) ^ (y - 1).
Proof.
  intros Hy. destruct y as [|k]; [lia|]. cbv zeta.
  destruct (state_after_costs a k) as (<- & <- & <- & <- & <- & <-).
  rewrite home_value_after, Nat.sub_succ, Nat.sub_0_r.
  destruct (costs_after a k) as (-> & -> & -> & -> & ->).
  repeat split.
Qed.

Lemma escalation_closed_form_witness :
  curr_home_value (year_start baseline 15)
  = initial_market_value baseline * (1 + appreciation_rate baseline) ^ 15
  /\ curr_rent_monthly (year_start baseline 15)
     = monthly_rent baseline * (1 + rent_appreciation baseline) ^ 14.
Proof.
  assert (Hy : (1 <= 15 <= 15)%nat) by lia.
  pose proof (escalation_closed_form baseline 15 Hy) as H.
  exact (conj (proj1 H) (proj1 (proj2 H))).
Defined.

(** * The output columns *)

(** With columns of one length, [rows] loses nothing: each column is read
    back from the rows. *)
Lemma rows_columns (ys : list Z) (os rs gs : list Qc) :
  length os = length ys -> length rs = length ys -> length gs = length ys ->
  map year (rows ys os rs gs) = ys
  /\ map owner_equity (rows ys os rs gs) = os
  /\ map renter_equity (rows ys os rs gs) = rs
  /\ map benefit (rows ys os rs gs) = gs.
Proof.
  revert os rs gs.
  induction ys as [|y ys IH]; intros [|o os] [|r rs] [|g gs];
    simpl; intros Ho Hr Hg; try discriminate; [repeat split|].
  destruct (IH os rs gs) as (Hy' & Ho' & Hr' & Hg'); try congruence.
  rewrite Hy', Ho', Hr', Hg'. repeat split.
Qed.

Lemma columns_after (a : Assumptions) (k : nat) :
  let s := state_after a k in
  owner_net_outcome s = map (fun y => owner_equity (year_result a y)) (seq 1 k)
  /\ renter_net_outcome s
     = map (fun y => renter_equity (year_result a y)) (seq 1 k)
  /\ gap_data s = map (fun y => benefit (year_result a y)) (seq 1 k).
Proof.
  cbv zeta.
  destruct (lists_length a k) as (Hy & Ho & Hr & Hg).
  destruct (rows_columns (years (state_after a k))
              (owner_net_outcome (state_after a k))
              (renter_net_outcome (state_after a k))
              (gap_data (state_after a k)))
    as (_ & Ho' & Hr' & Hg'); try congruence.
  fold (results_of (state_after a k)) in Ho', Hr', Hg'.
  rewrite results_after, map_map in Ho', Hr', Hg'.
  repeat split; symmetry; assumption.
Qed.

Lemma nth_error_map_seq {A : Type} (f : nat -> A) (i k : nat) :
  (i < k)%nat -> nth_error (map f (seq 1 k)) i = Some (f (S i)).
Proof.
  intros Hi. rewrite nth_error_map, nth_error_seq.
  destruct (Nat.ltb_spec i k); [reflexivity | lia].
Qed.

(** X2. The three value columns line up: at every index below 15 all three
    lists have an entry, and the entry of [gap_data] is the entry of
    [owner_net_outcome] minus the entry of [renter_net_outcome]. *)
Theorem gap_is_owner_minus_renter (a : Assumptions) (i : nat) :
  (i < 15)%nat ->
  exists o r g : Qc,
    nth_error (owner_net_outcome (simulate a)) i = Some o
    /\ nth_error (renter_net_outcome (simulate a)) i = Some r
    /\ nth_error (gap_data (simulate a)) i = Some g
    /\ g = o - r.
Proof.
  intros Hi. unfold simulate.
  exists (owner_equity (year_result a (S i))),
    (renter_equity (year_result a (S i))),
    (benefit (year_result a (S i))).
  destruct (columns_after a 15) as (-> & -> & ->).
  rewrite !nth_error_map_seq by exact Hi.
  repeat split.
Qed.

Lemma gap_is_owner_minus_renter_witness :
  exists o r g : Qc,
    nth_error (owner_net_outcome (simulate baseline)) 14 = Some o
    /\ nth_error (renter_net_outcome (simulate baseline)) 14 = Some r
    /\ nth_error (gap_data (simulate baseline)) 14 = Some g
    /\ g = o - r.
Proof.
  assert (Hi : (14 < 15)%nat) by lia.
  exact (gap_is_owner_minus_renter baseline 14 Hi).
Defined.

(** * Summary metrics *)

Lemma gap_positive_iff (o r : Qc) : 0 < o - r <-> r < o.
Proof. split; intros H; qc_lra. Qed.

(** X3. The metrics for years 5, 10 and 15 (and any [gap_data[i]] with
    [i < 15]) never index past the end of the list; the label is
    "Owner Wins" with colour "normal" exactly when that year's owner equity
    is strictly above the renter's equity, and "Renter Wins" with colour
    "inverse" otherwise, a tie included. *)
Theorem metric_delta_spec (a : Assumptions) (i : nat) :
  (i < 15)%nat ->
  let row := year_result a (S i) in
  (renter_equity row < owner_equity row ->
   metric_delta (simulate a) i = Some ("Owner Wins"%string, "normal"%string))
  /\ (owner_equity row <= renter_equity row ->
      metric_delta (simulate a) i
      = Some ("Renter Wins"%string, "inverse"%string)).
Proof.
  intros Hi. cbv zeta. unfold metric_delta, simulate.
  destruct (columns_after a 15) as (_ & _ & ->).
  rewrite nth_error_map_seq by exact Hi.
  unfold delta_of, delta_color_of.
  change (benefit (year_result a (S i)))
    with (owner_equity (year_result a (S i))
          - renter_equity (year_result a (S i))).
  split; intros H.
  - apply gap_positive_iff, ltb_lt in H. now rewrite H.
  - assert (Hge : Num.ltb 0 (owner_equity (year_result a (S i))
                             - renter_equity (year_result a (S i))) = false).
    { apply ltb_ge. qc_lra. }
    now rewrite Hge.
Qed.

Lemma metric_delta_spec_witness :
  renter_equity (year_result zero_rate_30 5)
  < owner_equity (year_result zero_rate_30 5)
  /\ metric_delta (simulate zero_rate_30) 4
     = Some ("Owner Wins"%string, "normal"%string)
  /\ owner_equity (year_result zero_rate_30 1)
     <= renter_equity (year_result zero_rate_30 1)
  /\ metric_delta (simulate zero_rate_30) 0
     = Some ("Renter Wins"%string, "inverse"%string).
Proof.
  assert (H5 : renter_equity (year_result zero_rate_30 5)
               < owner_equity (year_result zero_rate_30 5)) by qc_closed.
  assert (H1 : owner_equity (year_result zero_rate_30 1)
               <= renter_equity (year_result zero_rate_30 1)) by qc_closed.
  assert (Hi4 : (4 < 15)%nat) by lia.
  assert (Hi0 : (0 < 15)%nat) by lia.
  exact (conj H5
           (conj (proj1 (metric_delta_spec zero_rate_30 4 Hi4) H5)
              (conj H1 (proj2 (metric_delta_spec zero_rate_30 0 Hi0) H1)))).
Defined.

(** * Noninterference of the owner side *)

Lemma agree_owner_payment (a1 a2 : Assumptions) :
  agree_on_owner_inputs a1 a2 ->
  monthly_rate a1 = monthly_rate a2 /\ monthly_pi a1 = monthly_pi a2.
Proof.
  intros (Hp & Hd & Hr & Ht & _).
  unfold monthly_pi, monthly_rate, n_periods, loan_amount,
    down_payment_dollars.
  now rewrite Hp, Hd, Hr, Ht.
Qed.

Lemma year_body_owner_view (a1 a2 : Assumptions) (r M : Qc) (yr : Z)
  (s1 s2 : State) :
  agree_on_owner_inputs a1 a2 ->
  owner_view s1 = owner_view s2 ->
  owner_view (year_body a1 r M yr s1) = owner_view (year_body a2 r M yr s2).
Proof.
  intros (_ & _ & _ & _ & _ & _ & Happ & Hsell) Hview.
  unfold owner_view in *.
  injection Hview as Hhome Hbal Hout.
  unfold year_body, equity_of.
  cbn [curr_home_value curr_loan_balance owner_net_outcome].
  rewrite !escalate_balance, Hbal.
  destruct (escalate_lists a1 yr s1) as (_ & -> & _).
  destruct (escalate_lists a2 yr s2) as (_ & -> & _).
  assert (Hesc : curr_home_value (escalate a1 yr s1)
                 = curr_home_value (escalate a2 yr s2)).
  { unfold escalate. destruct (1 <? yr)%Z;
      cbn [curr_home_value]; now rewrite Hhome, Happ. }
  now rewrite Hesc, Hsell, Hout.
Qed.

Lemma agree_owner_init (a1 a2 : Assumptions) :
  agree_on_owner_inputs a1 a2 -> owner_view (init a1) = owner_view (init a2).
Proof.
  intros (Hp & Hd & _ & _ & Hreno & Hrec & _).
  unfold owner_view, init, initial_market_value, loan_amount,
    down_payment_dollars.
  cbn [curr_home_value curr_loan_balance owner_net_outcome].
  now rewrite Hp, Hd, Hreno, Hrec.
Qed.

Lemma agree_owner_state_after (a1 a2 : Assumptions) (k : nat) :
  agree_on_owner_inputs a1 a2 ->
  owner_view (state_after a1 k) = owner_view (state_after a2 k).
Proof.
  intros Hagree. induction k as [|k IH].
  - now apply agree_owner_init.
  - rewrite !state_after_S.
    destruct (agree_owner_payment a1 a2 Hagree) as (-> & ->).
    now apply year_body_owner_view.
Qed.

(** X4. The owner's column depends only on the price, the down payment,
    the mortgage rate and term, the renovation cost and recapture, the
    appreciation rate and the selling costs: two runs that agree on these
    report the same owner equity in every year, whatever their rent, HOA,
    insurance, maintenance, tax, inflation and investment-return inputs. *)
Theorem owner_side_noninterference (a1 a2 : Assumptions) :
  agree_on_owner_inputs a1 a2 ->
  map owner_equity (df_res a1) = map owner_equity (df_res a2).
Proof.
  intros Hagree. rewrite !df_res_rows, !map_map. apply map_ext.
  intros y. unfold year_result. cbn [owner_equity].
  pose proof (agree_owner_state_after a1 a2 y Hagree) as H.
  unfold owner_view in H. injection H as Hhome Hbal _.
  destruct Hagree as (_ & _ & _ & _ & _ & _ & _ & Hsell).
  unfold equity_of. now rewrite Hhome, Hbal, Hsell.
Qed.

Lemma owner_side_noninterference_witness :
  agree_on_owner_inputs baseline (set_rent exempt #9000)
  /\ map owner_equity (df_res baseline)
     = map owner_equity (df_res (set_rent exempt #9000)).
Proof.
  assert (H : agree_on_owner_inputs baseline (set_rent exempt #9000))
    by (repeat split).
  exact (conj H (owner_side_noninterference _ _ H)).
Defined.

(** * Sensitivity to the rent *)

Lemma portfolio_step (a : Assumptions) (k : nat) :
  let s := state_after a (S k) in
  renter_portfolio s
  = renter_portfolio (state_after a k) * (1 + cost_of_capital a)
    + (monthly_pi a * #12 + curr_hoa s * #12 + curr_tax_bill s + curr_maint s
       + curr_insurance s - curr_rent_monthly s * #12).
Proof.
  cbv zeta. rewrite state_after_portfolio.
  destruct (state_after_costs a k) as (_ & -> & -> & -> & -> & ->).
  unfold grow_portfolio, cash_flow_diff, owner_annual_spend,
    renter_annual_spend.
  now rewrite year_start_portfolio.
Qed.

Lemma Qc_pow_nonneg (x : Qc) (k : nat) : 0 <= x -> 0 <= x ^ k.
Proof. apply Qcpower_pos. Qed.

Lemma rent_step_le (p p' c s x x' : Qc) :
  0 <= c -> p' <= p -> x <= x' ->
  p' * (1 + c) + (s - x' * #12) <= p * (1 + c) + (s - x * #12).
Proof.
  intros Hc Hp Hx.
  assert (H12 : x * #12 <= x' * #12).
  { apply Qcmult_le_compat_r; [exact Hx|].
    apply Qclt_le_weak. now apply ofZ_pos. }
  assert (Hpc : p' * (1 + c) <= p * (1 + c)).
  { apply Qcmult_le_compat_r; [exact Hp|]. qc_lra. }
  revert H12 Hpc. generalize (x * #12), (x' * #12), (p' * (1 + c)),
    (p * (1 + c)). intros u u' v v' H12 Hpc. qc_lra.
Qed.

Lemma portfolio_rent_mono (a : Assumptions) (rent' : Qc) (k : nat) :
  0 <= rent_appreciation a -> 0 <= cost_of_capital a ->
  monthly_rent a <= rent' ->
  renter_portfolio (state_after (set_rent a rent') k)
  <= renter_portfolio (state_after a k).
Proof.
  intros Hg Hc Hrent. induction k as [|k IH].
  - apply Qcle_refl.
  - rewrite !portfolio_step.
    destruct (costs_after a k) as (-> & -> & -> & -> & ->).
    destruct (costs_after (set_rent a rent') k) as (-> & -> & -> & -> & ->).
    change (monthly_pi (set_rent a rent')) with (monthly_pi a).
    cbn [set_rent hoa_monthly monthly_rent rent_appreciation inflation_rate
         maintenance_rate insurance_rate cost_of_capital].
    change (initial_market_value (set_rent a rent'))
      with (initial_market_value a).
    change (initial_tax_bill (set_rent a rent')) with (initial_tax_bill a).
    change (tax_growth (set_rent a rent')) with (tax_growth a).
    apply rent_step_le; [exact Hc | exact IH |].
    apply Qcmult_le_compat_r; [exact Hrent|].
    apply Qc_pow_nonneg. qc_lra.
Qed.

(** X5. Raising the monthly rent, all else equal, never raises the renter's
    equity in any year and leaves the owner's equity unchanged, so the
    benefit of owning never falls.  (Needs a non-negative rent appreciation
    and investment return.) *)
Theorem higher_rent_favours_owning (a : Assumptions) (rent' : Qc) :
  0 <= rent_appreciation a -> 0 <= cost_of_capital a ->
  monthly_rent a <= rent' ->
  forall (i : nat) (row row' : YearResult),
    nth_error (df_res a) i = Some row ->
    nth_error (df_res (set_rent a rent')) i = Some row' ->
    renter_equity row' <= renter_equity row
    /\ owner_equity row' = owner_equity row
    /\ benefit row <= benefit row'.
Proof.
  intros Hg Hc Hrent i row row' Hrow Hrow'.
  assert (Hi : (i < 15)%nat).
  { assert (Hsome : nth_error (df_res a) i <> None) by congruence.
    apply nth_error_Some in Hsome. rewrite df_res_rows in Hsome.
    now rewrite length_map, length_seq in Hsome. }
  rewrite df_res_rows, nth_error_map_seq in Hrow, Hrow' by exact Hi.
  injection Hrow as <-. injection Hrow' as <-.
  pose proof (portfolio_rent_mono a rent' (S i) Hg Hc Hrent) as Hle.
  assert (Hown : owner_equity (year_result (set_rent a rent') (S i))
                 = owner_equity (year_result a (S i))).
  { assert (Hagree : agree_on_owner_inputs (set_rent a rent') a)
      by (repeat split).
    pose proof (agree_owner_state_after _ _ (S i) Hagree) as H.
    unfold owner_view in H. injection H as Hhome Hbal _.
    unfold year_result, equity_of. cbn [owner_equity].
    now rewrite Hhome, Hbal. }
  split; [exact Hle | split; [exact Hown|]].
  unfold year_result in *. cbn [benefit owner_equity renter_equity] in *.
  rewrite Hown. revert Hle.
  generalize (renter_portfolio (state_after (set_rent a rent') (S i))),
    (renter_portfolio (state_after a (S i))),
    (equity_of a (curr_home_value (state_after a (S i)))
       (curr_loan_balance (state_after a (S i)))).
  intros u v w Hle. qc_lra.
Qed.

Lemma higher_rent_favours_owning_witness :
  0 <= rent_appreciation baseline /\ 0 <= cost_of_capital baseline
  /\ monthly_rent baseline <= #4000
  /\ renter_equity (year_result (set_rent baseline #4000) 15)
     <= renter_equity (year_result baseline 15)
  /\ benefit (year_result baseline 15)
     <= benefit (year_result (set_rent baseline #4000) 15).
Proof.
  assert (Hg : 0 <= rent_appreciation baseline) by qc_closed.
  assert (Hc : 0 <= cost_of_capital baseline) by qc_closed.
  assert (Hrent : monthly_rent baseline <= #4000) by qc_closed.
  assert (Hy : (1 <= 15 <= 15)%nat) by lia.
  pose proof (higher_rent_favours_owning baseline #4000 Hg Hc Hrent 14%nat
                _ _ (df_res_nth baseline 15 Hy)
                (df_res_nth (set_rent baseline #4000) 15 Hy))
    as (Hle & _ & Hben).
  exact (conj Hg (conj Hc (conj Hrent (conj Hle Hben)))).
Defined.

(** * The monthly loop on any state *)

Lemma pay_month_paid_off (r M : Qc) (l : Loan) :
  balance l <= 0 ->
  pay_month r M l
  = {| balance := 0;
       interest_paid := interest_paid l;
       principal_paid := principal_paid l |}.
Proof.
  intros Hb. unfold pay_month.
  replace (Num.ltb 0 (balance l)) with false
    by (symmetry; now apply ltb_ge).
  reflexivity.
Qed.

(** X6. A paid-off loan stays paid off: from a balance of zero or below,
    any positive number of months leaves the balance at exactly 0 and adds
    nothing to the interest and principal totals, whatever the rate and the
    payment. *)
Theorem paid_off_stays_paid_off (r M : Qc) (k : nat) (l : Loan) :
  balance l <= 0 -> (0 < k)%nat ->
  pay_months r M k l
  = {| balance := 0;
       interest_paid := interest_paid l;
       principal_paid := principal_paid l |}.
Proof.
  intros Hb Hk. destruct k as [|k]; [lia|].
  cbn [pay_months]. rewrite (pay_month_paid_off r M l Hb).
  clear Hb Hk. induction k as [|k IH]; [reflexivity|].
  cbn [pay_months]. rewrite pay_month_paid_off by apply Qcle_refl.
  exact IH.
Qed.

Lemma paid_off_stays_paid_off_witness :
  - #5 <= 0
  /\ pay_months (#1 / #100) #1000 12
       {| balance := - #5; interest_paid := #7; principal_paid := #9 |}
     = {| balance := 0; interest_paid := #7; principal_paid := #9 |}.
Proof.
  assert (Hb : - #5 <= 0) by qc_closed.
  assert (Hk : (0 < 12)%nat) by lia.
  exact (conj Hb
           (paid_off_stays_paid_off (#1 / #100) #1000 12
              {| balance := - #5; interest_paid := #7; principal_paid := #9 |}
              Hb Hk)).
Defined.

(** X7. The guard of the monthly loop bounds the overshoot: with a
    non-negative rate and payment, after any positive number of months,
    from any state, the balance is never below [- M], that is, never more
    than one payment below zero. *)
Theorem overshoot_below_one_payment (r M : Qc) (k : nat) (l : Loan) :
  0 <= r -> 0 <= M -> (0 < k)%nat ->
  - M <= balance (pay_months r M k l).
Proof.
  intros Hr HM Hk. destruct k as [|k]; [lia|].
  rewrite pay_months_S. now apply pay_month_floor.
Qed.

Lemma overshoot_below_one_payment_witness :
  0 <= 0 /\ 0 <= #100
  /\ - #100 <= balance (pay_months 0 #100 1
                          {| balance := 1; interest_paid := 0;
                             principal_paid := 0 |}).
Proof.
  assert (Hr : 0 <= 0) by qc_closed.
  assert (HM : 0 <= #100) by qc_closed.
  assert (Hk : (0 < 1)%nat) by lia.
  exact (conj Hr (conj HM (overshoot_below_one_payment 0 #100 1 _ Hr HM Hk))).
Defined.

(** * The yearly totals of a well-formed run *)

Lemma closed_balance_strict (r L : Qc) (n k : nat) :
  0 <= r -> 0 < L -> (0 < n)%nat ->
  closed_balance r L n (S k) < closed_balance r L n k.
Proof.
  intros Hr HL Hn. unfold closed_balance.
  destruct (Qc_eq_dec r 0) as [E|E].
  - assert (Hlt : #(Z.of_nat k) < #(Z.of_nat (S k))) by (apply ofZ_lt; lia).
    assert (Hnpos : 0 < #(Z.of_nat n)) by (apply ofZ_pos; lia).
    unfold Qcdiv. apply Qcmult_lt_compat_r.
    + unfold Qclt. rewrite this_inv. apply Qinv_lt_0_compat. exact Hnpos.
    + revert Hlt. generalize #(Z.of_nat k), #(Z.of_nat (S k)), #(Z.of_nat n).
      intros x y z Hlt. qc_nra.
  - assert (Hr' : 0 < r).
    { destruct (Qcle_lt_or_eq _ _ Hr) as [H|H]; [exact H|].
      exfalso. apply E. now symmetry. }
    pose proof (pow_step_lt r Hr k Hr') as Hlt.
    pose proof (pow_n_minus_1_pos r n Hr Hn Hr') as Hd.
    unfold Qcdiv. apply Qcmult_lt_compat_r.
    + unfold Qclt. rewrite this_inv. apply Qinv_lt_0_compat. exact Hd.
    + revert Hlt. generalize ((1 + r) ^ k), ((1 + r) ^ S k), ((1 + r) ^ n).
      intros x y z Hlt. qc_nra.
Qed.

Section WellFormedYears.

Variable a : Assumptions.
Hypothesis wf : well_formed a.

Let r := monthly_rate a.
Let L := loan_amount a.
Let n := Z.to_nat (n_periods a).
Let M := monthly_pi a.
Let B := closed_balance r L n.

Lemma year_balance_closed (y : nat) :
  (y <= 15)%nat -> curr_loan_balance (state_after a y) = B (12 * y).
Proof.
  intros Hy. pose proof (months_ge_180 a wf) as Hn.
  rewrite balance_after_year, (loan_after_closed a wf) by (fold n; lia).
  reflexivity.
Qed.

Lemma year_loan_closed (k : nat) :
  (k < 15)%nat ->
  year_loan a (S k)
  = {| balance := B (12 * S k);
       interest_paid := #12 * M - (B (12 * k) - B (12 * S k));
       principal_paid := B (12 * k) - B (12 * S k) |}.
Proof.
  intros Hk. pose proof (months_ge_180 a wf) as Hn.
  unfold year_loan. rewrite Nat.sub_succ, Nat.sub_0_r.
  rewrite year_balance_closed by lia.
  unfold pay_year. fold r M. subst M. rewrite (monthly_pi_payment a wf).
  fold r L n. subst B.
  rewrite (pay_months_closed r L n (monthly_rate_nonneg a wf)
             (loan_amount_nonneg a wf)) by (fold n in Hn; lia).
  replace (12 * k + 12)%nat with (12 * S k)%nat by lia.
  change (Z.of_nat 12) with 12%Z. f_equal; ring.
Qed.

End WellFormedYears.

(** X8. In every simulated year of a well-formed run the two totals of the
    monthly loop add up to twelve payments, the principal total is exactly
    the fall of the balance over the year, and neither total is negative. *)
Theorem yearly_totals (a : Assumptions) (y : nat) :
  well_formed a -> (1 <= y <= 15)%nat ->
  let l := year_loan a y in
  interest_paid l + principal_paid l = #12 * monthly_pi a
  /\ principal_paid l
     = curr_loan_balance (state_after a (y - 1))
       - curr_loan_balance (state_after a y)
  /\ balance l = curr_loan_balance (state_after a y)
  /\ 0 <= interest_paid l
  /\ 0 <= principal_paid l.
Proof.
  intros wf Hy. destruct y as [|k]; [lia|]. cbv zeta.
  rewrite Nat.sub_succ, Nat.sub_0_r.
  assert (Hint : 0 <= interest_paid (year_loan a (S k))).
  { unfold year_loan, pay_year.
    apply (pay_months_interest (monthly_rate a) (monthly_pi a) 12
             {| balance := curr_loan_balance (state_after a (S k - 1));
                interest_paid := 0; principal_paid := 0 |}).
    exact (monthly_rate_nonneg a wf). }
  revert Hint.
  rewrite (year_loan_closed a wf k) by lia.
  rewrite !(year_balance_closed a wf) by lia.
  cbn [interest_paid principal_paid balance]. intros Hint.
  pose proof (months_ge_180 a wf) as Hn.
  assert (Hmono : closed_balance (monthly_rate a) (loan_amount a)
                    (Z.to_nat (n_periods a)) (12 * S k)
                  <= closed_balance (monthly_rate a) (loan_amount a)
                       (Z.to_nat (n_periods a)) (12 * k)).
  { apply closed_balance_mono_le;
      [exact (monthly_rate_nonneg a wf) | exact (loan_amount_nonneg a wf)
      | lia | lia]. }
  refine (conj _ (conj eq_refl (conj eq_refl (conj Hint _)))).
  - ring.
  - revert Hmono. generalize (closed_balance (monthly_rate a) (loan_amount a)
                    (Z.to_nat (n_periods a)) (12 * S k)),
      (closed_balance (monthly_rate a) (loan_amount a)
                       (Z.to_nat (n_periods a)) (12 * k)).
    intros u v Huv. qc_lra.
Qed.

Lemma yearly_totals_witness :
  well_formed baseline
  /\ interest_paid (year_loan baseline 15)
     + principal_paid (year_loan baseline 15)
     = #12 * monthly_pi baseline
  /\ 0 <= interest_paid (year_loan baseline 15).
Proof.
  assert (Hy : (1 <= 15 <= 15)%nat) by lia.
  pose proof (yearly_totals baseline 15 baseline_well_formed Hy)
    as (Hsum & _ & _ & Hint & _).
  exact (conj baseline_well_formed (conj Hsum Hint)).
Defined.

(** X9. The payment is never negative, and the [n] payments of a
    well-formed loan together are never less than the amount borrowed: the
    total interest [M * n - loan_amount] is non-negative. *)
Theorem payments_cover_the_loan (a : Assumptions) :
  well_formed a ->
  0 <= monthly_pi a
  /\ loan_amount a <= monthly_pi a * #(n_periods a).
Proof.
  intros wf.
  pose proof (months_ge_180 a wf) as Hn.
  pose proof (monthly_rate_nonneg a wf) as Hr.
  pose proof (loan_amount_nonneg a wf) as HL.
  assert (Hint : 0 <= interest_paid (loan_after a (Z.to_nat (n_periods a)))).
  { unfold loan_after.
    apply (pay_months_interest (monthly_rate a) (monthly_pi a) _
             {| balance := loan_amount a; interest_paid := 0;
                principal_paid := 0 |}).
    exact Hr. }
  rewrite (loan_after_closed a wf) in Hint by lia.
  cbn [interest_paid] in Hint.
  rewrite (closed_balance_n _ _ _ Hr) in Hint by lia.
  rewrite (months_to_nat a wf) in Hint.
  assert (Hnpos : 0 < #(n_periods a))
    by (apply ofZ_pos, (n_periods_pos a wf)).
  assert (Hcover : loan_amount a <= monthly_pi a * #(n_periods a)).
  { revert Hint. generalize (monthly_pi a), (loan_amount a), #(n_periods a).
    intros m l k Hint. qc_lra. }
  split; [|exact Hcover].
  apply (Qc_mult_pos_reg #(n_periods a)); [exact Hnpos|].
  rewrite Qcmult_comm. eapply Qcle_trans; [exact HL | exact Hcover].
Qed.

Lemma payments_cover_the_loan_witness :
  well_formed baseline
  /\ 0 <= monthly_pi baseline
  /\ loan_amount baseline <= monthly_pi baseline * #(n_periods baseline).
Proof.
  exact (conj baseline_well_formed
           (payments_cover_the_loan baseline baseline_well_formed)).
Defined.

(** X10. With a positive loan the debt falls strictly every year: each
    year-end balance is strictly below the balance the year started with,
    the first year starting from [loan_amount]. *)
Theorem balance_strictly_decreasing (a : Assumptions) (y : nat) :
  well_formed a -> 0 < loan_amount a -> (y < 15)%nat ->
  curr_loan_balance (state_after a (S y)) < curr_loan_balance (state_after a y)
  /\ curr_loan_balance (state_after a 0) = loan_amount a.
Proof.
  intros wf HL Hy. split; [|reflexivity].
  rewrite !(year_balance_closed a wf) by lia.
  pose proof (months_ge_180 a wf) as Hn.
  pose proof (monthly_rate_nonneg a wf) as Hr.
  assert (Hstep : forall j k : nat,
             closed_balance (monthly_rate a) (loan_amount a)
               (Z.to_nat (n_periods a)) (k + S j)
             < closed_balance (monthly_rate a) (loan_amount a)
                 (Z.to_nat (n_periods a)) k).
  { induction j as [|j IH]; intros k.
    - replace (k + 1)%nat with (S k) by lia.
      apply closed_balance_strict; [exact Hr | exact HL | lia].
    - replace (k + S (S j))%nat with (S (k + S j)) by lia.
      eapply Qclt_trans; [|apply IH].
      apply closed_balance_strict; [exact Hr | exact HL | lia]. }
  replace (12 * S y)%nat with (12 * y + S 11)%nat by lia.
  apply Hstep.
Qed.

Lemma balance_strictly_decreasing_witness :
  well_formed baseline /\ 0 < loan_amount baseline
  /\ curr_loan_balance (state_after baseline 15)
     < curr_loan_balance (state_after baseline 14).
Proof.
  assert (HL : 0 < loan_amount baseline) by qc_closed.
  assert (Hy : (14 < 15)%nat) by lia.
  exact (conj baseline_well_formed
           (conj HL (proj1 (balance_strictly_decreasing baseline 14
                              baseline_well_formed HL Hy)))).
Defined.

Lemma monthly_rate_zero (a : Assumptions) :
  mortgage_rate a = 0 -> monthly_rate a = 0.
Proof. intros H. unfold monthly_rate. now apply div12_zero. Qed.

(** X11. At a mortgage rate of 0 the schedule is a straight line: every
    year charges no interest, pays twelve payments of principal, and leaves
    [loan_amount - 12 * y * monthly_pi] after year [y], where [monthly_pi]
    is [loan_amount / n]. *)
Theorem zero_rate_is_linear (a : Assumptions) (y : nat) :
  well_formed a -> mortgage_rate a = 0 -> (1 <= y <= 15)%nat ->
  monthly_pi a = loan_amount a / #(n_periods a)
  /\ interest_paid (year_loan a y) = 0
  /\ principal_paid (year_loan a y) = #12 * monthly_pi a
  /\ curr_loan_balance (state_after a y)
     = loan_amount a - #(12 * Z.of_nat y) * monthly_pi a.
Proof.
  intros wf Hrate Hy. destruct y as [|k]; [lia|].
  pose proof (monthly_rate_zero a Hrate) as Hr0.
  assert (HM : monthly_pi a = loan_amount a / #(n_periods a)).
  { rewrite (monthly_pi_payment a wf). unfold payment.
    destruct (Qc_eq_dec (monthly_rate a) 0) as [_|E]; [|contradiction].
    now rewrite (months_to_nat a wf). }
  assert (Hnne : #(n_periods a) <> 0)
    by (apply Qc_neq_0_lt, ofZ_pos, (n_periods_pos a wf)).
  assert (HB : forall j : nat,
             closed_balance (monthly_rate a) (loan_amount a)
               (Z.to_nat (n_periods a)) j
             = loan_amount a - #(Z.of_nat j) * monthly_pi a).
  { intros j. unfold closed_balance.
    destruct (Qc_eq_dec (monthly_rate a) 0) as [_|E]; [|contradiction].
    rewrite (months_to_nat a wf), HM. field. exact Hnne. }
  rewrite (year_loan_closed a wf k) by lia.
  rewrite (year_balance_closed a wf) by lia.
  cbn [interest_paid principal_paid]. rewrite !HB.
  replace (Z.of_nat (12 * S k)) with (12 * Z.of_nat (S k))%Z by lia.
  assert (Hk : #(12 * Z.of_nat (S k)) = #(Z.of_nat (12 * k)) + #12).
  { apply this_eq. rewrite this_plus, !this_ofZ, <- inject_Z_plus.
    replace (12 * Z.of_nat (S k))%Z with (Z.of_nat (12 * k) + 12)%Z by lia.
    reflexivity. }
  rewrite Hk. refine (conj HM (conj _ (conj _ eq_refl))); ring.
Qed.

Lemma zero_rate_is_linear_witness :
  well_formed zero_rate_30 /\ mortgage_rate zero_rate_30 = 0
  /\ interest_paid (year_loan zero_rate_30 15) = 0
  /\ curr_loan_balance (state_after zero_rate_30 15)
     = loan_amount zero_rate_30
       - #(12 * Z.of_nat 15) * monthly_pi zero_rate_30.
Proof.
  assert (Hy : (1 <= 15 <= 15)%nat) by lia.
  pose proof (zero_rate_is_linear zero_rate_30 15 zero_rate_30_well_formed
                eq_refl Hy) as (_ & Hint & _ & Hbal).
  exact (conj zero_rate_30_well_formed (conj eq_refl (conj Hint Hbal))).
Defined.

(** * Debt-free owners *)

(** X12. With a 15-year term the loan is retired exactly when the
    simulation ends: the last row's owner equity is the home value after
    fifteen appreciations, less selling costs, with no debt deducted. *)
Theorem term_15_final_equity (a : Assumptions) :
  well_formed a -> mortgage_term a = 15%Z ->
  exists row : YearResult,
    nth_error (df_res a) 14 = Some row
    /\ year row = 15%Z
    /\ owner_equity row
       = initial_market_value a * (1 + appreciation_rate a) ^ 15
         * (1 - selling_costs_pct a).
Proof.
  intros wf Hterm. exists (year_result a 15).
  split; [exact (df_res_nth a 15 ltac:(lia))|].
  split; [reflexivity|].
  unfold year_result, equity_of. cbn [owner_equity].
  rewrite home_value_after.
  assert (Hn : Z.to_nat (n_periods a) = 180%nat)
    by (unfold n_periods; rewrite Hterm; reflexivity).
  rewrite (year_balance_closed a wf) by lia.
  change (12 * 15)%nat with 180%nat. rewrite <- Hn.
  rewrite closed_balance_n; [ring | exact (monthly_rate_nonneg a wf) | lia].
Qed.

Lemma term_15_final_equity_witness :
  well_formed baseline /\ mortgage_term baseline = 15%Z
  /\ exists row : YearResult,
       nth_error (df_res baseline) 14 = Some row
       /\ year row = 15%Z
       /\ owner_equity row
          = initial_market_value baseline
            * (1 + appreciation_rate baseline) ^ 15
            * (1 - selling_costs_pct baseline).
Proof.
  exact (conj baseline_well_formed
           (conj eq_refl
              (term_15_final_equity baseline baseline_well_formed eq_refl))).
Defined.

(** X13. A purchase paid in full (down payment of 100%) borrows nothing:
    the payment is 0, the balance is 0 in every year, and each year's owner
    equity is the appreciated home value less selling costs. *)
Theorem full_down_payment (a : Assumptions) (y : nat) :
  well_formed a -> down_payment_percent a = 1 -> (1 <= y <= 15)%nat ->
  loan_amount a = 0
  /\ monthly_pi a = 0
  /\ curr_loan_balance (state_after a y) = 0
  /\ owner_equity (year_result a y)
     = initial_market_value a * (1 + appreciation_rate a) ^ y
       * (1 - selling_costs_pct a).
Proof.
  intros wf Hdown Hy.
  assert (HL : loan_amount a = 0).
  { unfold loan_amount, down_payment_dollars. rewrite Hdown. ring. }
  assert (Hbal : curr_loan_balance (state_after a y) = 0).
  { rewrite (year_balance_closed a wf) by lia.
    apply closed_balance_L0. exact HL. }
  refine (conj HL (conj _ (conj Hbal _))).
  - rewrite (monthly_pi_payment a wf). apply payment_L0. exact HL.
  - unfold year_result, equity_of. cbn [owner_equity].
    rewrite Hbal, home_value_after. ring.
Qed.

Lemma full_down_payment_witness :
  well_formed (set_down baseline 1)
  /\ down_payment_percent (set_down baseline 1) = 1
  /\ monthly_pi (set_down baseline 1) = 0
  /\ curr_loan_balance (state_after (set_down baseline 1) 15) = 0.
Proof.
  assert (wf : well_formed (set_down baseline 1)).
  { constructor; try qc_closed. left. reflexivity. }
  assert (Hy : (1 <= 15 <= 15)%nat) by lia.
  pose proof (full_down_payment (set_down baseline 1) 15 wf eq_refl Hy)
    as (_ & HM & Hbal & _).
  exact (conj wf (conj eq_refl (conj HM Hbal))).
Defined.

(** * The tax bill over the years *)

Lemma min_le_both (x y : Qc) : Num.min x y <= x /\ Num.min x y <= y.
Proof.
  unfold Num.min. destruct (Num.ltb y x) eqn:E.
  - apply ltb_lt in E. split; [now apply Qclt_le_weak | apply Qcle_refl].
  - apply ltb_ge in E. split; [apply Qcle_refl | exact E].
Qed.

Lemma min_nonneg (x y : Qc) : 0 <= x -> 0 <= y -> 0 <= Num.min x y.
Proof.
  intros Hx Hy. unfold Num.min.
  destruct (Num.ltb y x); [exact Hy | exact Hx].
Qed.

Lemma growth_bounds (u m i c : Qc) :
  0 <= m -> m <= i -> m <= c ->
  (0 <= u ->
   u <= u * (1 + m) /\ u * (1 + m) <= u * (1 + i)
   /\ u * (1 + m) <= u * (1 + c))
  /\ (u <= 0 -> u * (1 + m) <= u).
Proof.
  intros Hm Hmi Hmc. split; intros Hu.
  - repeat split; qc_nra.
  - qc_nra.
Qed.

(** X14. A non-negative tax bill never falls and never grows faster than
    inflation nor faster than the cap: from each year to the next it is
    multiplied by a factor between 1 and both [1 + inflation_rate] and
    [1 + tax_cap_rate].  A negative initial bill (exemption above the price)
    stays non-positive and never rises. *)
Theorem tax_bill_bounds (a : Assumptions) (y : nat) :
  well_formed a -> (1 <= y < 15)%nat ->
  let t := curr_tax_bill (year_start a y) in
  let t' := curr_tax_bill (year_start a (S y)) in
  (0 <= initial_tax_bill a ->
   0 <= t /\ t <= t'
   /\ t' <= t * (1 + inflation_rate a)
   /\ t' <= t * (1 + tax_cap_rate a))
  /\ (initial_tax_bill a <= 0 -> t <= 0 /\ t' <= t).
Proof.
  intros wf Hy. destruct y as [|k]; [lia|]. cbv zeta.
  destruct (state_after_costs a k) as (_ & _ & <- & _).
  destruct (state_after_costs a (S k)) as (_ & _ & <- & _).
  destruct (costs_after a k) as (_ & _ & _ & _ & Ht).
  destruct (costs_after a (S k)) as (_ & _ & _ & _ & Ht').
  rewrite Ht'. cbn [Qcpower]. rewrite Ht.
  unfold tax_growth.
  pose proof (min_le_both (inflation_rate a) (tax_cap_rate a)) as (Hmi & Hmc).
  pose proof (min_nonneg _ _ (wf_inflation a wf) (wf_tax_cap a wf)) as Hm0.
  assert (Hpow : 0 <= (1 + Num.min (inflation_rate a) (tax_cap_rate a)) ^ k).
  { apply Qcpower_pos. qc_lra. }
  set (m := Num.min (inflation_rate a) (tax_cap_rate a)) in *.
  replace (initial_tax_bill a * ((1 + m) * (1 + m) ^ k))
    with (initial_tax_bill a * (1 + m) ^ k * (1 + m)) by ring.
  destruct (growth_bounds (initial_tax_bill a * (1 + m) ^ k) m
              (inflation_rate a) (tax_cap_rate a) Hm0 Hmi Hmc)
    as (Hpos & Hneg).
  split; intros Ht0.
  - assert (Hu : 0 <= initial_tax_bill a * (1 + m) ^ k)
      by (now apply Qc_mult_nonneg).
    split; [exact Hu | now apply Hpos].
  - assert (Hu : initial_tax_bill a * (1 + m) ^ k <= 0).
    { rewrite Qcmult_comm. revert Ht0 Hpow.
      generalize (initial_tax_bill a), ((1 + m) ^ k).
      intros t0 p Ht0 Hp. qc_nra. }
    split; [exact Hu | now apply Hneg].
Qed.

Lemma tax_bill_bounds_witness :
  well_formed baseline /\ 0 <= initial_tax_bill baseline
  /\ curr_tax_bill (year_start baseline 14)
     <= curr_tax_bill (year_start baseline 15)
  /\ well_formed exempt /\ initial_tax_bill exempt <= 0
  /\ curr_tax_bill (year_start exempt 15)
     <= curr_tax_bill (year_start exempt 14).
Proof.
  assert (Hb : 0 <= initial_tax_bill baseline) by qc_closed.
  assert (He : initial_tax_bill exempt <= 0) by qc_closed.
  assert (Hy : (1 <= 14 < 15)%nat) by lia.
  pose proof (proj1 (tax_bill_bounds baseline 14 baseline_well_formed Hy) Hb)
    as (_ & Hup & _).
  pose proof (proj2 (tax_bill_bounds exempt 14 exempt_well_formed Hy) He)
    as (_ & Hdown).
  exact (conj baseline_well_formed
           (conj Hb (conj Hup (conj exempt_well_formed (conj He Hdown))))).
Defined.

(** * The renter's portfolio as a future value *)

Lemma total_app (l1 l2 : list Qc) : total (l1 ++ l2) = total l1 + total l2.
Proof.
  induction l1 as [|x l1 IH]; simpl.
  - ring.
  - rewrite IH. ring.
Qed.

Lemma total_scale (c : Qc) (l : list Qc) :
  total (map (fun x => x * c) l) = total l * c.
Proof.
  induction l as [|x l IH]; simpl.
  - ring.
  - rewrite IH. ring.
Qed.

(** X15. The renter's portfolio after year [y] is the future value, at the
    investment return, of the initial cash and of each year's cash-flow
    difference: the initial cash compounds for [y] years and the difference
    of year [j] for the [y - j] years that follow it. *)
Theorem portfolio_future_value (a : Assumptions) (y : nat) :
  (y <= 15)%nat ->
  let g := 1 + cost_of_capital a in
  renter_portfolio (state_after a y)
  = initial_cash_invested a * g ^ y
    + total (map (fun j => year_cash_flow a j * g ^ (y - j)) (seq 1 y)).
Proof.
  intros _. cbv zeta. induction y as [|y IH].
  - simpl. unfold state_after. simpl. ring.
  - rewrite state_after_portfolio. unfold grow_portfolio.
    rewrite year_start_portfolio, IH.
    rewrite seq_S, map_app, total_app. cbn [map total Nat.add].
    rewrite Nat.sub_diag.
    assert (Hshift :
              map (fun j => year_cash_flow a j
                            * (1 + cost_of_capital a) ^ (S y - j)) (seq 1 y)
              = map (fun x => x * (1 + cost_of_capital a))
                  (map (fun j => year_cash_flow a j
                                 * (1 + cost_of_capital a) ^ (y - j))
                     (seq 1 y))).
    { rewrite map_map. apply map_ext_in. intros j Hj.
      apply in_seq in Hj.
      replace (S y - j)%nat with (S (y - j)) by lia.
      simpl. ring. }
    rewrite Hshift, total_scale. unfold year_cash_flow. simpl. ring.
Qed.

Lemma portfolio_future_value_witness :
  renter_portfolio (state_after baseline 2)
  = initial_cash_invested baseline * (1 + cost_of_capital baseline) ^ 2
    + total (map (fun j => year_cash_flow baseline j
                           * (1 + cost_of_capital baseline) ^ (2 - j))
               (seq 1 2)).
Proof.
  assert (Hy : (2 <= 15)%nat) by lia.
  exact (portfolio_future_value baseline 2 Hy).
Defined.
